(** * hypercorecrypto: the hashing and derivation layer, embedded in Rocq

    A shallow embedding of [hypercorecrypto.go]: the canonical byte streams
    fed to BLAKE2b-256 for leaves, parents and roots, the discovery key and
    the namespace expansion, together with the imported pieces the code
    leans on: [encoding/binary.PutUvarint], the streaming [hash.Hash] object
    and, to run the functions on the tests' inputs, BLAKE2b-256 itself.

    Layout: the embedding of the code; the varint format in its own terms;
    the hash; then the proofs, and last the functions evaluated on the
    inputs of [hypercorecrypto_test.go]. *)

From Stdlib Require Import ZArith Lia List Strings.Byte.
From stdpp Require Import base numbers list strings.
Import ListNotations.

Local Open Scope Z_scope.

(** ** Run-time failures

    Go code either returns or panics.  [FuelExhausted] is not a Go outcome:
    it marks the bound of the one loop modelled with fuel, and is never
    produced for a [uint64] argument ([PutUvarint_spec]). *)

Inductive panic : Set :=
  | IndexOutOfRange
  | SliceBoundsOutOfRange
  | MakeLenOutOfRange
  | FuelExhausted.

Inductive result (A : Type) : Type :=
  | Ok (a : A)
  | Panic (p : panic).

Arguments Ok {A} a.
Arguments Panic {A} p.

Definition bind {A B} (r : result A) (k : A -> result B) : result B :=
  match r with
  | Ok a => k a
  | Panic p => Panic p
  end.

Notation "'let*' x ':=' r 'in' k" := (bind r (fun x => k))
  (at level 10, x name, r at level 100, k at level 200, only parsing).
Notation "'let*' ' p ':=' r 'in' k" := (bind r (fun p => k))
  (at level 10, p strict pattern, r at level 100, k at level 200,
   only parsing).

(** Monadic left fold: the body of a [for _, x := range xs] loop that may
    panic. *)
Fixpoint foldM {S A} (f : S -> A -> result S) (s : S) (xs : list A) : result S :=
  match xs with
  | [] => Ok s
  | x :: xs => let* s' := f s x in foldM f s' xs
  end.

(** ** Machine integers and bytes *)

(** [uint64] arithmetic wraps modulo 2^64. *)
Definition uint64 (z : Z) : Z := z mod 2 ^ 64.

(** [int] is taken to be 64 bits wide, as on the 64-bit platforms Go
    targets; arithmetic wraps in two's complement. *)
Definition int (z : Z) : Z := (z + 2 ^ 63) mod 2 ^ 64 - 2 ^ 63.

Definition MaxInt : Z := 2 ^ 63 - 1.

Definition is_uint64 (z : Z) : Prop := 0 <= z < 2 ^ 64.
Definition is_int (z : Z) : Prop := - 2 ^ 63 <= z <= MaxInt.

(** The conversion [byte(x)]: the low eight bits. *)
Definition byte_of (z : Z) : byte :=
  match Byte.of_N (Z.to_N (z mod 256)) with
  | Some b => b
  | None => x00
  end.

Definition Z_of_byte (b : byte) : Z := Z.of_N (Byte.to_N b).

(** [a | b] on bytes. *)
Definition byte_or (a b : byte) : byte := byte_of (Z.lor (Z_of_byte a) (Z_of_byte b)).

Definition bytes_of (zs : list Z) : list byte := map byte_of zs.

(** [len(s)] as an [int]. *)
Definition len {A} (s : list A) : Z := Z.of_nat (length s).

(** ** Slices

    A byte slice is modelled by its contents.  The operations below are the
    checked ones of the language. *)

(** [make([]T, n)]: panics on a negative length, otherwise [n] zero values.
    The allocation itself is taken to succeed: memory is not bounded. *)
Definition make {A} (zero : A) (n : Z) : result (list A) :=
  if n <? 0 then Panic MakeLenOutOfRange else Ok (replicate (Z.to_nat n) zero).

(** [s[i] = v] *)
Definition store {A} (s : list A) (i : Z) (v : A) : result (list A) :=
  if (0 <=? i) && (i <? len s) then Ok (<[Z.to_nat i := v]> s)
  else Panic IndexOutOfRange.

(** [s[lo:hi]], for a slice whose capacity equals its length. *)
Definition slice {A} (s : list A) (lo hi : Z) : result (list A) :=
  if (0 <=? lo) && (lo <=? hi) && (hi <=? len s)
  then Ok (take (Z.to_nat (hi - lo)) (drop (Z.to_nat lo) s))
  else Panic SliceBoundsOutOfRange.

(** [copy(dst, src)]: copies [min(len(dst), len(src))] elements and leaves
    the rest of [dst] alone; returns the new contents of [dst]. *)
Definition copy {A} (dst src : list A) : list A :=
  take (length dst) src ++ drop (length src) dst.

(** ** encoding/binary *)

Definition MaxVarintLen64 : Z := 10.

(** The loop of [PutUvarint]:
<<
	for x >= 0x80 {
		buf[i] = byte(x) | 0x80
		x >>= 7
		i++
	}
>> *)
Fixpoint PutUvarint_loop (fuel : nat) (buf : list byte) (x : Z) (i : Z)
  : result (list byte * Z * Z) :=
  match fuel with
  | O => Panic FuelExhausted
  | S fuel =>
      if 0x80 <=? x then
        let* buf := store buf i (byte_or (byte_of x) x80) in
        PutUvarint_loop fuel buf (Z.shiftr x 7) (int (i + 1))
      else Ok (buf, x, i)
  end.

(** [func PutUvarint(buf []byte, x uint64) int]; the updated buffer is
    returned along with the count.  One round of the loop drops seven bits
    of [x], so 64 rounds are never used up. *)
Definition PutUvarint (buf : list byte) (x : Z) : result (list byte * Z) :=
  let* '(buf, x, i) := PutUvarint_loop 64 buf x 0 in
  let* buf := store buf i (byte_of x) in
  Ok (buf, int (i + 1)).

(** ** io.Writer and hash.Hash *)

(** [io.Writer]: the code ignores the count and the error of [Write]. *)
Class Writer (W : Type) := write : W -> list byte -> W.

(** [bytes.Buffer] *)
Definition Buffer := list byte.
#[export] Instance Buffer_Writer : Writer Buffer := fun w p => w ++ p.

(** The hash primitive: a function from the absorbed stream to a 32-byte
    digest. *)
Class Hash256 := {
  sum256 : list byte -> list byte;
  sum256_length : forall m, length (sum256 m) = 32%nat
}.

(** The streaming [hash.Hash] object: what has been written so far. *)
Record hasher : Set := Hasher { absorbed : list byte }.

Definition New256 : hasher := Hasher [].
Definition Write (h : hasher) (p : list byte) : hasher := Hasher (absorbed h ++ p).
Definition Reset (h : hasher) : hasher := Hasher [].
#[export] Instance hasher_Writer : Writer hasher := Write.

(** [h.Sum(b)] appends the digest of the stream to [b]; the state is kept. *)
Definition Sum `{Hash256} (h : hasher) (b : list byte) : list byte :=
  b ++ sum256 (absorbed h).

(** ** hypercorecrypto.go *)

Definition LeafType : byte := byte_of 0.
Definition ParentType : byte := byte_of 1.
Definition RootType : byte := byte_of 2.
Definition Hypercore : string := "hypercore"%string.

Record TreeNode : Set := mkTreeNode {
  Index : Z;
  Hash : list byte;
  Size : Z
}.

Definition wf_node (n : TreeNode) : Prop := is_uint64 (Index n) /\ is_uint64 (Size n).

(** [var buf [n]byte]: a zeroed array. *)
Definition array (n : Z) : list byte := replicate (Z.to_nat n) x00.

(** [WriteUvarint] and [writeUvarint] have the same body. *)
Definition WriteUvarint {W} `{Writer W} (w : W) (x : Z) : result W :=
  let buf := array MaxVarintLen64 in
  let* '(buf, n) := PutUvarint buf x in
  let* p := slice buf 0 n in
  Ok (write w p).

Definition writeUvarint {W} `{Writer W} (w : W) (x : Z) : result W :=
  let buf := array MaxVarintLen64 in
  let* '(buf, n) := PutUvarint buf x in
  let* p := slice buf 0 n in
  Ok (write w p).

Section Hashing.
Context `{Hash256}.

Definition Data (data : list byte) : result (list byte) :=
  let hash := New256 in
  let hash := Write hash [LeafType] in
  let* hash := WriteUvarint hash (uint64 (len data)) in
  let hash := Write hash data in
  Ok (Sum hash []).

Definition Parent (a b : TreeNode) : result (list byte) :=
  let '(a, b) := if Index b <? Index a then (b, a) else (a, b) in
  let* out := make x00 32 in
  let parentType := [ParentType] in
  let* combinedSize := make x00 MaxVarintLen64 in
  let* '(combinedSize, n) := PutUvarint combinedSize (uint64 (Size a + Size b)) in
  let* sz := slice combinedSize 0 n in
  let buffers := [parentType; sz; Hash a; Hash b] in
  let hash := New256 in
  let hash := fold_left Write buffers hash in
  let* out0 := slice out 0 0 in
  Ok (Sum hash out0).

(** One round of [for _, r := range roots]. *)
Definition Tree_body (hash : hasher) (r : TreeNode) : result hasher :=
  let hash := Write hash (Hash r) in
  let* hash := writeUvarint hash (Index r) in
  writeUvarint hash (Size r).

Definition Tree (roots : list TreeNode) (out : option (list byte)) : result (list byte) :=
  let hash := New256 in
  let hash := Write hash [RootType] in
  let* hash := foldM Tree_body hash roots in
  let* out := match out with
              | None => make x00 32
              | Some out => Ok out
              end in
  let* out0 := slice out 0 0 in
  Ok (Sum hash out0).

Definition DiscoveryKey (publicKey : list byte) : list byte :=
  let hash := New256 in
  let hash := Write hash (String.list_byte_of_string Hypercore) in
  let hash := Write hash publicKey in
  Sum hash [].

End Hashing.

(** *** Namespace

    [ids[i]] is a slice header into the shared array [buf]: a [view] records
    the bounds, and contents are always read from (and copied into) [buf]. *)

Record view : Set := View { lo : Z; hi : Z }.

(** [buf[lo:hi]] as a slice header; [nil] headers are [None]. *)
Definition window (buf : list byte) (lo hi : Z) : result (option view) :=
  if (0 <=? lo) && (lo <=? hi) && (hi <=? len buf) then Ok (Some (View lo hi))
  else Panic SliceBoundsOutOfRange.

Definition read (buf : list byte) (v : option view) : list byte :=
  match v with
  | None => []
  | Some v => take (Z.to_nat (hi v - lo v)) (drop (Z.to_nat (lo v)) buf)
  end.

(** [copy(v, src)] for a header [v] into [buf]: the new contents of [buf]. *)
Definition copy_view (buf : list byte) (v : option view) (src : list byte) : list byte :=
  match v with
  | None => buf
  | Some w =>
      take (Z.to_nat (lo w)) buf ++ copy (read buf v) src ++ drop (Z.to_nat (hi w)) buf
  end.

(** [s[i]] *)
Definition load {A} (s : list A) (i : Z) : result A :=
  if (0 <=? i) && (i <? len s) then
    match s !! Z.to_nat i with
    | Some a => Ok a
    | None => Panic IndexOutOfRange
    end
  else Panic IndexOutOfRange.

Section Namespaces.
Context `{Hash256}.

Definition Namespace_state : Type := list (option view) * list byte * list byte * hasher.

(** One round of [for i := range ids]. *)
Definition Namespace_body (st : Namespace_state) (i : Z) : result Namespace_state :=
  let '(ids, buf, ns, hash) := st in
  let* v := window buf (int (i * 32)) (int (int (i + 1) * 32)) in
  let* ids := store ids i v in
  let* ns := store ns 32 (byte_of i) in
  let hash := Reset hash in
  let hash := Write hash ns in
  let* dst := load ids i in
  let buf := copy_view buf dst (Sum hash []) in
  Ok (ids, buf, ns, hash).

Definition Namespace (name : list byte) (count : Z) : result (list (list byte)) :=
  let* ids := make (@None view) count in
  let* buf := make x00 (int (32 * count)) in
  let* ns := make x00 33 in
  let hash := New256 in
  let hash := Write hash name in
  let ns := copy ns (Sum hash []) in
  let* '(ids, buf, ns, hash) :=
    foldM Namespace_body (ids, buf, ns, hash) (seqZ 0 (len ids)) in
  Ok (map (read buf) ids).

(** The identifier the format assigns to index [i]: the digest of the seed
    followed by the single byte [byte(i)]. *)
Definition Namespace_id (name : list byte) (i : Z) : list byte :=
  sum256 (sum256 name ++ [byte_of i]).

(** The slice headers and the shared array after [k] rounds out of [n]. *)
Definition ids_after (k n : nat) : list (option view) :=
  map (fun j : nat => Some (View (Z.of_nat j * 32) ((Z.of_nat j + 1) * 32))) (seq 0 k)
  ++ replicate (n - k) None.

Definition buf_after (name : list byte) (k n : nat) : list byte :=
  concat (map (fun j : nat => Namespace_id name (Z.of_nat j)) (seq 0 k))
  ++ replicate (32 * (n - k)) x00.

End Namespaces.

(** ** The varint format, stated independently of the code *)

(** Number of 7-bit groups needed for [x]. *)
Definition groups (x : Z) : nat := S (Z.to_nat (Z.log2 x / 7)).

(** Little-endian base 128: group [k] holds bits [7k .. 7k+6] of [x], and
    every group but the last carries the continuation bit. *)
Definition uvarint (x : Z) : list byte :=
  let n := groups x in
  map (fun k : nat =>
         byte_of (Z.land (Z.shiftr x (7 * Z.of_nat k)) 0x7f
                  + (if (S k <? n)%nat then 0x80 else 0)))
      (seq 0 n).

(** The value of a byte string read as base-128 digits, low digit first. *)
Fixpoint uvarint_value (bs : list byte) : Z :=
  match bs with
  | [] => 0
  | b :: bs => Z.land (Z_of_byte b) 0x7f + 128 * uvarint_value bs
  end.

Definition continues (b : byte) : bool := Z.testbit (Z_of_byte b) 7.

(** Continuation bit set on every byte but the last, clear on the last. *)
Fixpoint framed (bs : list byte) : bool :=
  match bs with
  | [] => false
  | [b] => negb (continues b)
  | b :: bs => continues b && framed bs
  end.

(** No trailing padding: a multi-byte encoding does not end in a zero
    group. *)
Definition unpadded (bs : list byte) : bool :=
  match bs with
  | [] | [_] => true
  | _ => negb (Z.land (Z_of_byte (List.last bs x00)) 0x7f =? 0)
  end.

(** ** BLAKE2b-256, the hash behind [blake2b.New256]

    The imported package computes unkeyed BLAKE2b with a 32-byte digest
    (RFC 7693).  It is given here so that the hashing functions can be run,
    and checked against the digest recorded in the package's own test. *)

Module Blake2b.

Definition add64 (a b : Z) : Z := (a + b) mod 2 ^ 64.

Definition rotr64 (x n : Z) : Z :=
  Z.lor (Z.shiftr x n) (Z.shiftl x (64 - n) mod 2 ^ 64).

Definition IV : list Z :=
  [ 0x6a09e667f3bcc908; 0xbb67ae8584caa73b; 0x3c6ef372fe94f82b;
    0xa54ff53a5f1d36f1; 0x510e527fade682d1; 0x9b05688c2b3e6c1f;
    0x1f83d9abfb41bd6b; 0x5be0cd19137e2179 ].

Definition SIGMA : list (list nat) :=
  [ [ 0;  1;  2;  3;  4;  5;  6;  7;  8;  9; 10; 11; 12; 13; 14; 15];
    [14; 10;  4;  8;  9; 15; 13;  6;  1; 12;  0;  2; 11;  7;  5;  3];
    [11;  8; 12;  0;  5;  2; 15; 13; 10; 14;  3;  6;  7;  1;  9;  4];
    [ 7;  9;  3;  1; 13; 12; 11; 14;  2;  6;  5; 10;  4;  0; 15;  8];
    [ 9;  0;  5;  7;  2;  4; 10; 15; 14;  1; 11; 12;  6;  8;  3; 13];
    [ 2; 12;  6; 10;  0; 11;  8;  3;  4; 13;  7;  5; 15; 14;  1;  9];
    [12;  5;  1; 15; 14; 13;  4; 10;  0;  7;  6;  3;  9;  2;  8; 11];
    [13; 11;  7; 14; 12;  1;  3;  9;  5;  0; 15;  4;  8;  6;  2; 10];
    [ 6; 15; 14;  9; 11;  3;  0;  8; 12;  2; 13;  7;  1;  4; 10;  5];
    [10;  2;  8;  4;  7;  6;  1;  5; 15; 11;  9; 14;  3; 12; 13;  0] ]%nat.

(** Twelve rounds: the ten permutations, then the first two again. *)
Definition schedule : list (list nat) := SIGMA ++ take 2 SIGMA.

Definition get (v : list Z) (i : nat) : Z := nth i v 0.

(** The mixing function G on the work vector [v]. *)
Definition G (v : list Z) (a b c d : nat) (x y : Z) : list Z :=
  let va := add64 (add64 (get v a) (get v b)) x in
  let vd := rotr64 (Z.lxor (get v d) va) 32 in
  let vc := add64 (get v c) vd in
  let vb := rotr64 (Z.lxor (get v b) vc) 24 in
  let va := add64 (add64 va vb) y in
  let vd := rotr64 (Z.lxor vd va) 16 in
  let vc := add64 vc vd in
  let vb := rotr64 (Z.lxor vb vc) 63 in
  <[a := va]> (<[b := vb]> (<[c := vc]> (<[d := vd]> v))).

Definition round (m : list Z) (v : list Z) (s : list nat) : list Z :=
  let w (i : nat) := get m (nth i s 0%nat) in
  let v := G v 0 4 8 12 (w 0%nat) (w 1%nat) in
  let v := G v 1 5 9 13 (w 2%nat) (w 3%nat) in
  let v := G v 2 6 10 14 (w 4%nat) (w 5%nat) in
  let v := G v 3 7 11 15 (w 6%nat) (w 7%nat) in
  let v := G v 0 5 10 15 (w 8%nat) (w 9%nat) in
  let v := G v 1 6 11 12 (w 10%nat) (w 11%nat) in
  let v := G v 2 7 8 13 (w 12%nat) (w 13%nat) in
  G v 3 4 9 14 (w 14%nat) (w 15%nat).

(** Compression of one block [m] (sixteen words) with byte counter [t]. *)
Definition F (h m : list Z) (t : Z) (final : bool) : list Z :=
  let v := h ++ IV in
  let v := <[12%nat := Z.lxor (get v 12) (t mod 2 ^ 64)]> v in
  let v := <[13%nat := Z.lxor (get v 13) (t / 2 ^ 64 mod 2 ^ 64)]> v in
  let v := if final then <[14%nat := Z.lxor (get v 14) (2 ^ 64 - 1)]> v else v in
  let v := fold_left (round m) schedule v in
  map (fun i : nat => Z.lxor (Z.lxor (get h i) (get v i)) (get v (i + 8))) (seq 0 8).

(** Little-endian words of a block; missing bytes read as zero padding. *)
Definition le64 (bs : list byte) : Z :=
  fold_right (fun b acc => Z_of_byte b + 256 * acc) 0 bs.

Definition words (block : list byte) : list Z :=
  map (fun i : nat => le64 (take 8 (drop (8 * i) block))) (seq 0 16).

Definition le_bytes (w : Z) : list byte :=
  map (fun k : nat => byte_of (Z.shiftr w (8 * Z.of_nat k))) (seq 0 8).

(** Parameter block for digest length 32, no key. *)
Definition h0 : list Z := <[0%nat := Z.lxor (get IV 0) 0x01010020]> IV.

(** All blocks but the last are compressed as they fill up; the last
    (possibly empty, possibly full) block is compressed with the final
    flag.  [fuel] bounds the number of blocks. *)
Fixpoint absorb (fuel : nat) (h : list Z) (t : Z) (msg : list byte) : list Z :=
  match fuel with
  | O => F h (words msg) (t + len msg) true
  | S fuel =>
      if (length msg <=? 128)%nat then F h (words msg) (t + len msg) true
      else absorb fuel (F h (words (take 128 msg)) (t + 128) false) (t + 128)
                  (drop 128 msg)
  end.

Definition Sum256 (msg : list byte) : list byte :=
  take 32 (concat (map le_bytes (absorb (length msg) h0 0 msg))).

Lemma absorb_length fuel h t msg : length (absorb fuel h t msg) = 8%nat.
Proof.
  revert h t msg.
  induction fuel as [|fuel IH]; intros h t msg; cbn [absorb].
  - unfold F. now rewrite List.length_map, List.length_seq.
  - destruct (length msg <=? 128)%nat.
    + unfold F. now rewrite List.length_map, List.length_seq.
    + apply IH.
Qed.

Lemma Sum256_length msg : length (Sum256 msg) = 32%nat.
Proof.
  unfold Sum256.
  pose proof (absorb_length (length msg) h0 0 msg) as Hlen.
  destruct (absorb (length msg) h0 0 msg) as [|w0 [|w1 [|w2 [|w3 [|w4 [|w5 [|w6 [|w7 [|w8 ws]]]]]]]]];
    simpl in Hlen; try discriminate.
  reflexivity.
Qed.

End Blake2b.

#[export] Instance blake2b_Hash256 : Hash256 :=
  {| sum256 := Blake2b.Sum256; sum256_length := Blake2b.Sum256_length |}.

(** ** Key pairs

    [ValidateKeyPair] and [KeyPairFromSeed] only move bytes around what the
    signature package computes.  Of that package, [PrivateKey.Public] and
    the layout built by [NewKeyFromSeed] are modelled as they are; the
    derivation of a public key from a seed (SHA-512, clamping, base-point
    multiplication) is a parameter. *)

Record KeyPair : Set := mkKeyPair {
  PublicKey : list byte;
  PrivateKey : list byte
}.

Definition PublicKeySize : Z := 32.
Definition PrivateKeySize : Z := 64.
Definition SeedSize : Z := 32.

(** [bytes.Equal] *)
Fixpoint Equal (a b : list byte) : bool :=
  match a, b with
  | [], [] => true
  | x :: a, y :: b => Byte.eqb x y && Equal a b
  | _, _ => false
  end.

(** [func (priv PrivateKey) Public() crypto.PublicKey]:
<<
	publicKey := make([]byte, PublicKeySize)
	copy(publicKey, priv[32:])
>> *)
Definition Public (priv : list byte) : result (list byte) :=
  let* publicKey := make x00 PublicKeySize in
  let* tail := slice priv 32 (len priv) in
  Ok (copy publicKey tail).

Definition ValidateKeyPair (keyPair : KeyPair) : result bool :=
  let* public := Public (PrivateKey keyPair) in
  Ok (Equal public (PublicKey keyPair)).

(** A call of [panic] with a message, next to the run-time panics. *)
Inductive outcome (A : Type) : Type :=
  | Returns (a : A)
  | Fails (p : panic)
  | Panics (msg : string).

Arguments Returns {A} a.
Arguments Fails {A} p.
Arguments Panics {A} msg.

Definition run {A B} (r : result A) (k : A -> outcome B) : outcome B :=
  match r with
  | Ok a => k a
  | Panic p => Fails p
  end.

(** The signature scheme's map from a seed to its public key. *)
Class Ed25519 := {
  publicKeyOfSeed : list byte -> list byte;
  publicKeyOfSeed_length : forall seed, length (publicKeyOfSeed seed) = 32%nat
}.

Section KeyPairs.
Context `{Ed25519}.

(** [ed25519.NewKeyFromSeed]: refuses a seed that is not 32 bytes long
    (the message, which goes on with the length, is kept to its fixed
    part), otherwise lays out the seed followed by the public key:
<<
	copy(privateKey, seed)
	copy(privateKey[32:], publicKey)
>> *)
Definition NewKeyFromSeed (seed : list byte) : outcome (list byte) :=
  if negb (len seed =? SeedSize) then Panics "ed25519: bad seed length"%string
  else
    run (make x00 PrivateKeySize) (fun privateKey =>
    let publicKey := publicKeyOfSeed seed in
    let privateKey := copy privateKey seed in
    run (slice privateKey 32 (len privateKey)) (fun tail =>
    let privateKey := take 32 privateKey ++ copy tail publicKey in
    Returns privateKey)).

Definition KeyPairFromSeed (seed : list byte) : outcome KeyPair :=
  match NewKeyFromSeed seed with
  | Returns privateKey =>
      run (Public privateKey) (fun publicKey =>
      Returns {| PublicKey := publicKey; PrivateKey := privateKey |})
  | Fails p => Fails p
  | Panics msg => Panics msg
  end.

End KeyPairs.

(** ** encoding/binary, reading

    [TestWriteUvarint] reads back with [binary.ReadUvarint] from the
    [bytes.Buffer] it wrote to. *)

Inductive error : Set :=
  | EOF
  | ErrUnexpectedEOF
  | errOverflow.

(** [ReadByte] of a [bytes.Buffer]: the next byte, or [io.EOF]. *)
Definition ReadByte (r : Buffer) : option byte * Buffer :=
  match r with
  | [] => (None, [])
  | b :: r => (Some b, r)
  end.

(** The loop of [ReadUvarint], with [n] rounds left
    ([for i := 0; i < MaxVarintLen64; i++]); falling out of the loop is an
    overflow.  [s] is the shift, [x] the value read so far. *)
Fixpoint ReadUvarint_loop (n : nat) (r : Buffer) (x s i : Z)
  : Z * option error * Buffer :=
  match n with
  | O => (x, Some errOverflow, r)
  | S n =>
      match ReadByte r with
      | (None, r) => (x, Some (if 0 <? i then ErrUnexpectedEOF else EOF), r)
      | (Some b, r) =>
          if Z_of_byte b <? 0x80 then
            if (i =? MaxVarintLen64 - 1) && (1 <? Z_of_byte b)
            then (x, Some errOverflow, r)
            else (Z.lor x (uint64 (Z.shiftl (Z_of_byte b) s)), None, r)
          else
            ReadUvarint_loop n r
              (Z.lor x (uint64 (Z.shiftl (Z.land (Z_of_byte b) 0x7f) s)))
              (s + 7) (int (i + 1))
      end
  end.

(** [func ReadUvarint(r io.ByteReader) (uint64, error)]; what is left of the
    buffer is returned as well. *)
Definition ReadUvarint (r : Buffer) : Z * option error * Buffer :=
  ReadUvarint_loop (Z.to_nat MaxVarintLen64) r 0 0 0.

(** ** Collisions

    What the digests are worth rests on the hash primitive: the statements
    about distinct digests below are reductions to a collision, two
    different streams with one digest. *)

Definition collision `{Hash256} : Prop :=
  exists s1 s2 : list byte, s1 <> s2 /\ sum256 s1 = sum256 s2.

(** A hash with digests of the right size and nothing else: every pair of
    streams collides. *)
Definition zero_Hash256 : Hash256 :=
  {| sum256 := fun _ => replicate 32 x00;
     sum256_length := fun _ => eq_refl |}.

(** The children of a parent in the order [Parent] hashes them. *)
Definition children (a b : TreeNode) : TreeNode * TreeNode :=
  if Index b <? Index a then (b, a) else (a, b).

(** What [Tree] writes for one root. *)
Definition root_bytes (r : TreeNode) : list byte :=
  Hash r ++ uvarint (Index r) ++ uvarint (Size r).

(** Two adjacent roots read as one: the first root's bytes and the second
    root's hash taken together as a hash. *)
Definition fuse (r1 r2 : TreeNode) : TreeNode :=
  {| Index := Index r2; Hash := root_bytes r1 ++ Hash r2; Size := Size r2 |}.

(** ** Inputs of the package's tests ([TestTree], [TestParent],
    [TestNamespace]) *)

Definition test_roots : list TreeNode :=
  [ mkTreeNode 0 (bytes_of [1; 2; 3; 4; 5; 6; 7; 8]) 32;
    mkTreeNode 1 (bytes_of [9; 10; 11; 12; 13; 14; 15; 16]) 64 ].

Definition test_a : TreeNode :=
  mkTreeNode 1 (bytes_of [0x12; 0x34; 0x56; 0x78; 0x9a; 0xbc; 0xde; 0xf0]) 100.

Definition test_b : TreeNode :=
  mkTreeNode 2 (bytes_of [0xf0; 0xde; 0xbc; 0x9a; 0x78; 0x56; 0x34; 0x12]) 200.

Definition test_name : list byte := String.list_byte_of_string "testnamespace"%string.

(** Roots and children with hashes of 32 bytes, as the tree produces them. *)
Definition leaf_a : TreeNode :=
  mkTreeNode 0 (Blake2b.Sum256 (String.list_byte_of_string "a"%string)) 1.

Definition leaf_b : TreeNode :=
  mkTreeNode 2 (Blake2b.Sum256 (String.list_byte_of_string "b"%string)) 1.

(** A stand-in for the derivation of a public key, to run the key-pair
    functions: they only copy its result, so any function with 32-byte
    values serves. *)
Definition stand_in_Ed25519 : Ed25519 :=
  {| publicKeyOfSeed := Blake2b.Sum256;
     publicKeyOfSeed_length := Blake2b.Sum256_length |}.

(** * Proofs *)

(** ** Bytes *)

Lemma Z_of_byte_range b : 0 <= Z_of_byte b < 256.
Proof.
  unfold Z_of_byte. pose proof (Byte.to_N_bounded b). lia.
Qed.

Lemma Z_of_byte_of z : Z_of_byte (byte_of z) = z mod 256.
Proof.
  unfold Z_of_byte, byte_of.
  pose proof (Z.mod_pos_bound z 256 ltac:(lia)) as Hr.
  destruct (Byte.of_N (Z.to_N (z mod 256))) as [b|] eqn:E.
  - apply Byte.to_of_N in E. rewrite E. lia.
  - apply Byte.of_N_None_iff in E. lia.
Qed.

Lemma byte_of_Z_of b : byte_of (Z_of_byte b) = b.
Proof.
  unfold Z_of_byte, byte_of.
  pose proof (Byte.to_N_bounded b).
  rewrite Z.mod_small by lia.
  rewrite N2Z.id. now rewrite Byte.of_to_N.
Qed.

Lemma byte_of_mod z : byte_of (z mod 256) = byte_of z.
Proof. unfold byte_of. now rewrite Z.mod_mod by lia. Qed.

Lemma land_127 x : Z.land x 0x7f = x mod 128.
Proof. change 0x7f with (Z.ones 7). now rewrite Z.land_ones by lia. Qed.

(** [byte(x) | 0x80] keeps the low seven bits and sets the eighth. *)
Lemma byte_or_x80 x : byte_or (byte_of x) x80 = byte_of (Z.land x 0x7f + 0x80).
Proof.
  unfold byte_or. rewrite Z_of_byte_of, land_127.
  change (Z_of_byte x80) with 128.
  f_equal.
  assert (Hsplit : x mod 256 = x mod 128 + 128 * ((x / 128) mod 2)).
  { change 256 with (128 * 2). rewrite Z.rem_mul_r by lia. lia. }
  pose proof (Z.mod_pos_bound x 128 ltac:(lia)) as Hlo.
  assert (Hnc : Z.land (x mod 128) 128 = 0).
  { apply Z.bits_inj'. intros n Hn. rewrite Z.land_spec, Z.bits_0.
    destruct (Z.eq_dec n 7) as [->|Hne].
    - rewrite <- land_127. rewrite Z.land_spec. change (Z.testbit 0x7f 7) with false.
      now rewrite andb_false_r.
    - change 128 with (2 ^ 7). rewrite Z.pow2_bits_false by lia.
      now rewrite andb_false_r. }
  assert (Hor : Z.lor (x mod 128) 128 = x mod 128 + 128).
  { symmetry. now apply Z.add_nocarry_lor. }
  rewrite Hsplit.
  pose proof (Z.mod_pos_bound (x / 128) 2 ltac:(lia)) as Hb.
  assert (Hcase : (x / 128) mod 2 = 0 \/ (x / 128) mod 2 = 1) by lia.
  destruct Hcase as [-> | ->].
  - rewrite Z.mul_0_r, Z.add_0_r. exact Hor.
  - rewrite Z.mul_1_r, <- Hor, <- Z.lor_assoc, Z.lor_diag. reflexivity.
Qed.

(** ** The varint format *)

Lemma groups_small x : x < 128 -> groups x = 1%nat.
Proof.
  intros Hx. unfold groups.
  destruct (Z.le_gt_cases x 0) as [Hle|Hpos].
  - rewrite Z.log2_nonpos by lia. reflexivity.
  - assert (Z.log2 x < 7) by (apply Z.log2_lt_pow2; lia).
    pose proof (Z.log2_nonneg x).
    replace (Z.log2 x / 7) with 0; [reflexivity|].
    symmetry. apply Z.div_small. lia.
Qed.

Lemma groups_step x : 128 <= x -> groups x = S (groups (Z.shiftr x 7)).
Proof.
  intros Hx. unfold groups. f_equal.
  rewrite Z.log2_shiftr by lia.
  assert (7 <= Z.log2 x) by (apply Z.log2_le_pow2; lia).
  rewrite Z.max_r by lia.
  replace (Z.log2 x) with ((Z.log2 x - 7) + 1 * 7) at 1 by lia.
  rewrite Z.div_add by lia.
  pose proof (Z.div_pos (Z.log2 x - 7) 7 ltac:(lia) ltac:(lia)).
  lia.
Qed.

Lemma uvarint_small x : x < 128 -> uvarint x = [byte_of (Z.land x 0x7f)].
Proof.
  intros Hx. unfold uvarint. rewrite groups_small by exact Hx.
  cbn [seq map]. change (7 * Z.of_nat 0) with 0. change (2 <=? 1)%nat with false.
  now rewrite Z.shiftr_0_r, Z.add_0_r.
Qed.

Lemma uvarint_step x :
  128 <= x ->
  uvarint x = byte_of (Z.land x 0x7f + 0x80) :: uvarint (Z.shiftr x 7).
Proof.
  intros Hx. unfold uvarint. rewrite (groups_step x Hx).
  set (n := groups (Z.shiftr x 7)).
  cbn [seq map]. f_equal.
  rewrite <- List.seq_shift, List.map_map.
  apply List.map_ext. intros k.
  rewrite Z.shiftr_shiftr by lia.
  replace (7 + 7 * Z.of_nat k) with (7 * Z.of_nat (S k)) by lia.
  reflexivity.
Qed.

(** Induction along the groups of a number. *)
Lemma groups_ind (P : Z -> Prop) :
  (forall x, 0 <= x < 128 -> P x) ->
  (forall x, 128 <= x -> P (Z.shiftr x 7) -> P x) ->
  forall x, 0 <= x -> P x.
Proof.
  intros Hsmall Hstep.
  apply Zlt_0_ind. intros x IH Hx.
  destruct (Z_lt_ge_dec x 128) as [Hlt|Hge].
  - apply Hsmall. lia.
  - apply Hstep; [lia|]. apply IH.
    rewrite Z.shiftr_div_pow2 by lia.
    split.
    + apply Z.div_pos; lia.
    + apply Z.div_lt_upper_bound; lia.
Qed.

Lemma uvarint_length x : length (uvarint x) = groups x.
Proof. unfold uvarint. now rewrite List.length_map, List.length_seq. Qed.

Lemma groups_bound x n : 0 <= x < 2 ^ (7 * Z.of_nat n) -> (groups x <= Nat.max 1 n)%nat.
Proof.
  intros [Hx0 Hx].
  destruct (Z.eq_dec x 0) as [->|Hne]; [change (groups 0) with 1%nat; lia|].
  unfold groups.
  assert (Hl : Z.log2 x < 7 * Z.of_nat n) by (apply Z.log2_lt_pow2; lia).
  assert (Z.log2 x / 7 < Z.of_nat n) by (apply Z.div_lt_upper_bound; lia).
  pose proof (Z.div_pos (Z.log2 x) 7 (Z.log2_nonneg x) ltac:(lia)).
  lia.
Qed.

(** A [uint64] needs at most ten groups. *)
Lemma groups_uint64 x : is_uint64 x -> (1 <= groups x <= 10)%nat.
Proof.
  intros [Hx0 Hx]. split; [unfold groups; lia|].
  change 10%nat with (Nat.max 1 10). apply groups_bound.
  split; [exact Hx0|]. eapply Z.lt_le_trans; [exact Hx|].
  apply Z.pow_le_mono_r; lia.
Qed.

(** ** Checked operations that succeed *)

(** Side conditions on lengths and machine-integer ranges. *)
Ltac bounds :=
  unfold is_int, is_uint64, len, MaxInt, MaxVarintLen64 in *;
  rewrite ?length_replicate, ?length_insert, ?length_app;
  lia.

Lemma int_id z : is_int z -> int z = z.
Proof.
  unfold is_int, int, MaxInt. intros Hz.
  rewrite Z.mod_small by lia. lia.
Qed.

Lemma store_ok {A} (s : list A) i v :
  0 <= i < len s -> store s i v = Ok (<[Z.to_nat i := v]> s).
Proof.
  intros Hi. unfold store.
  now rewrite (proj2 (Z.leb_le 0 i)), (proj2 (Z.ltb_lt i (len s))) by lia.
Qed.

Lemma slice_ok {A} (s : list A) lo hi :
  0 <= lo <= hi -> hi <= len s ->
  slice s lo hi = Ok (take (Z.to_nat (hi - lo)) (drop (Z.to_nat lo) s)).
Proof.
  intros Hlo Hhi. unfold slice.
  now rewrite (proj2 (Z.leb_le 0 lo)), (proj2 (Z.leb_le lo hi)),
    (proj2 (Z.leb_le hi (len s))) by lia.
Qed.

Lemma make_ok {A} (zero : A) n :
  0 <= n -> make zero n = Ok (replicate (Z.to_nat n) zero).
Proof.
  intros Hn. unfold make. now rewrite (proj2 (Z.ltb_ge n 0)) by lia.
Qed.

Lemma make_negative {A} (zero : A) n :
  n < 0 -> make zero n = Panic MakeLenOutOfRange.
Proof.
  intros Hn. unfold make. now rewrite (proj2 (Z.ltb_lt n 0)) by lia.
Qed.

(** ** PutUvarint writes the varint of [x] at the front of the buffer *)

Lemma byte_of_low7 x : 0 <= x < 128 -> byte_of (Z.land x 0x7f) = byte_of x.
Proof. intros Hx. now rewrite land_127, Z.mod_small by lia. Qed.

Lemma PutUvarint_loop_S fuel buf x i :
  PutUvarint_loop (S fuel) buf x i
  = if 0x80 <=? x then
      let* buf := store buf i (byte_or (byte_of x) x80) in
      PutUvarint_loop fuel buf (Z.shiftr x 7) (int (i + 1))
    else Ok (buf, x, i).
Proof. reflexivity. Qed.

(** The store after the loop: the last group, without continuation bit. *)
Lemma PutUvarint_last buf x i :
  0 <= x < 128 -> 0 <= i < len buf -> len buf <= MaxInt ->
  (let* buf := store buf i (byte_of x) in Ok (buf, int (i + 1)))
  = Ok (take (Z.to_nat i) buf ++ uvarint x ++ drop (Z.to_nat i + groups x) buf,
        i + Z.of_nat (groups x)).
Proof.
  intros Hx Hi Hmax.
  rewrite store_ok by exact Hi. cbn [bind].
  rewrite int_id by bounds.
  rewrite groups_small, uvarint_small, byte_of_low7 by lia.
  rewrite insert_take_drop by bounds.
  replace (Z.to_nat i + 1)%nat with (S (Z.to_nat i)) by lia.
  reflexivity.
Qed.

Lemma shiftr7_bound x n :
  0 <= x < 2 ^ (7 * Z.of_nat (S n)) -> 0 <= Z.shiftr x 7 < 2 ^ (7 * Z.of_nat n).
Proof.
  intros Hx. rewrite Z.shiftr_div_pow2 by lia.
  split; [apply Z.div_pos; lia|].
  apply Z.div_lt_upper_bound; [lia|].
  rewrite <- Z.pow_add_r by lia.
  replace (7 + 7 * Z.of_nat n) with (7 * Z.of_nat (S n)) by lia.
  lia.
Qed.

(** The loop followed by the last store, started at index [i]. *)
Lemma PutUvarint_loop_spec fuel : forall buf x i,
  0 <= x < 2 ^ (7 * Z.of_nat (S fuel)) ->
  0 <= i ->
  i + Z.of_nat (groups x) <= len buf ->
  len buf <= MaxInt ->
  (let* '(buf, x, i) := PutUvarint_loop (S fuel) buf x i in
   let* buf := store buf i (byte_of x) in
   Ok (buf, int (i + 1)))
  = Ok (take (Z.to_nat i) buf ++ uvarint x
          ++ drop (Z.to_nat i + groups x) buf,
        i + Z.of_nat (groups x)).
Proof.
  induction fuel as [|fuel IH]; intros buf x i Hx Hi Hfit Hmax;
    rewrite PutUvarint_loop_S; destruct (Z.leb_spec 0x80 x) as [Hge|Hlt].
  - (* one round cannot take a number of two groups *)
    change (2 ^ (7 * Z.of_nat 1)) with 128 in Hx. lia.
  - cbn [bind]. apply PutUvarint_last; [lia| |exact Hmax].
    rewrite groups_small in Hfit by exact Hlt. lia.
  - (* a continuation byte, then the rest *)
    rewrite (groups_step x Hge) in Hfit |- *.
    rewrite store_ok by lia. cbn [bind].
    rewrite int_id by bounds.
    rewrite byte_or_x80.
    set (b := byte_of (Z.land x 0x7f + 0x80)).
    assert (Hlen : len (<[Z.to_nat i := b]> buf) = len buf)
      by (unfold len; now rewrite length_insert).
    rewrite IH by (rewrite ?Hlen; auto using shiftr7_bound with lia).
    rewrite (uvarint_step x Hge). fold b.
    replace (Z.to_nat (i + 1)) with (S (Z.to_nat i)) by lia.
    assert (Hlook : <[Z.to_nat i := b]> buf !! Z.to_nat i = Some b)
      by (apply list_lookup_insert_eq; bounds).
    rewrite (take_S_r _ _ _ Hlook).
    rewrite take_insert_ge, drop_insert_lt by lia.
    rewrite <- app_assoc. cbn [app].
    replace (S (Z.to_nat i) + groups (Z.shiftr x 7))%nat
      with (Z.to_nat i + S (groups (Z.shiftr x 7)))%nat by lia.
    replace (i + 1 + Z.of_nat (groups (Z.shiftr x 7)))
      with (i + Z.of_nat (S (groups (Z.shiftr x 7)))) by lia.
    reflexivity.
  - cbn [bind]. apply PutUvarint_last; [lia| |exact Hmax].
    rewrite groups_small in Hfit by exact Hlt. lia.
Qed.

Lemma PutUvarint_spec buf x :
  is_uint64 x ->
  MaxVarintLen64 <= len buf <= MaxInt ->
  PutUvarint buf x
  = Ok (uvarint x ++ drop (groups x) buf, Z.of_nat (groups x)).
Proof.
  intros Hx [Hlo Hhi]. unfold PutUvarint.
  pose proof (groups_uint64 x Hx) as Hg.
  change 64%nat with (S 63).
  rewrite PutUvarint_loop_spec.
  - reflexivity.
  - destruct Hx as [Hx0 Hx]. split; [exact Hx0|].
    eapply Z.lt_le_trans; [exact Hx|]. apply Z.pow_le_mono_r; lia.
  - lia.
  - unfold MaxVarintLen64 in Hlo. lia.
  - exact Hhi.
Qed.

Lemma WriteUvarint_spec {W} `{Writer W} (w : W) x :
  is_uint64 x -> WriteUvarint w x = Ok (write w (uvarint x)).
Proof.
  intros Hx. unfold WriteUvarint, array. cbv zeta.
  rewrite PutUvarint_spec;
    [|exact Hx|bounds].
  cbn [bind].
  pose proof (groups_uint64 x Hx) as Hg.
  rewrite slice_ok;
    [|lia|unfold len; rewrite length_app, uvarint_length; lia].
  cbn [bind]. rewrite Z.sub_0_r, Nat2Z.id. change (Z.to_nat 0) with 0%nat.
  rewrite drop_0, take_app_length' by (now rewrite uvarint_length).
  reflexivity.
Qed.

Lemma writeUvarint_spec {W} `{Writer W} (w : W) x :
  is_uint64 x -> writeUvarint w x = Ok (write w (uvarint x)).
Proof. exact (WriteUvarint_spec w x). Qed.

(** *** What the format promises *)

Lemma uvarint_value_nonneg bs : 0 <= uvarint_value bs.
Proof.
  induction bs as [|b bs IH]; cbn [uvarint_value]; [lia|].
  rewrite land_127. pose proof (Z.mod_pos_bound (Z_of_byte b) 128 ltac:(lia)). lia.
Qed.

Lemma shiftr7_digits p v : 0 <= p < 128 -> Z.shiftr (p + 128 * v) 7 = v.
Proof.
  intros Hp. rewrite Z.shiftr_div_pow2 by lia. change (2 ^ 7) with 128.
  replace (p + 128 * v) with (p + v * 128) by lia.
  rewrite Z.div_add by lia.
  rewrite (Z.div_small p 128) by lia. lia.
Qed.

Lemma mod128_digits p v : 0 <= p < 128 -> (p + 128 * v) mod 128 = p.
Proof.
  intros Hp. replace (p + 128 * v) with (p + v * 128) by lia.
  rewrite Z.mod_add by lia. now apply Z.mod_small.
Qed.

Lemma continues_true b : continues b = true -> Z_of_byte b = Z_of_byte b mod 128 + 128.
Proof.
  unfold continues. intros Hb.
  apply Z.testbit_true in Hb; [|lia]. change (2 ^ 7) with 128 in Hb.
  pose proof (Z_of_byte_range b) as Hr.
  rewrite (Z.mod_small (Z_of_byte b / 128) 2) in Hb.
  - rewrite (Z.div_mod (Z_of_byte b) 128) at 1 by lia. lia.
  - split; [apply Z.div_pos; lia|apply Z.div_lt_upper_bound; lia].
Qed.

Lemma continues_false b : continues b = false -> Z_of_byte b = Z_of_byte b mod 128.
Proof.
  unfold continues. intros Hb.
  apply Z.testbit_false in Hb; [|lia]. change (2 ^ 7) with 128 in Hb.
  pose proof (Z_of_byte_range b) as Hr.
  rewrite (Z.mod_small (Z_of_byte b / 128) 2) in Hb.
  - rewrite (Z.div_mod (Z_of_byte b) 128) at 1 by lia. lia.
  - split; [apply Z.div_pos; lia|apply Z.div_lt_upper_bound; lia].
Qed.

Lemma continues_byte_of z : 0 <= z < 128 -> continues (byte_of (z + 128)) = true.
Proof.
  intros Hz. unfold continues. rewrite Z_of_byte_of, Z.mod_small by lia.
  apply Z.testbit_true; [lia|]. change (2 ^ 7) with 128.
  rewrite Z.add_comm. change 128 with (1 * 128) at 1.
  rewrite Z.div_add_l, (Z.div_small z 128) by lia. reflexivity.
Qed.

Lemma continues_byte_of_low z : 0 <= z < 128 -> continues (byte_of z) = false.
Proof.
  intros Hz. unfold continues. rewrite Z_of_byte_of, Z.mod_small by lia.
  apply Z.testbit_false; [lia|]. change (2 ^ 7) with 128.
  now rewrite (Z.div_small z 128) by lia.
Qed.

Lemma uvarint_nonempty x : uvarint x <> [].
Proof.
  intros Hnil. apply (f_equal length) in Hnil.
  rewrite uvarint_length in Hnil. discriminate.
Qed.

(** Decoding inverts encoding. *)
Lemma uvarint_value_uvarint x : 0 <= x -> uvarint_value (uvarint x) = x.
Proof.
  revert x. apply groups_ind.
  - intros x Hx. rewrite uvarint_small by lia. cbn [uvarint_value].
    rewrite land_127, Z_of_byte_of, !land_127.
    rewrite (Z.mod_small x 128), (Z.mod_small x 256), (Z.mod_small x 128) by lia. lia.
  - intros x Hx IH. rewrite uvarint_step by exact Hx. cbn [uvarint_value].
    rewrite IH, land_127, Z_of_byte_of, land_127.
    pose proof (Z.mod_pos_bound x 128 ltac:(lia)) as Hr.
    rewrite (Z.mod_small (x mod 128 + 128) 256) by lia.
    replace (x mod 128 + 128) with (x mod 128 + 1 * 128) by lia.
    rewrite Z.mod_add, Z.mod_mod by lia.
    rewrite Z.shiftr_div_pow2 by lia. change (2 ^ 7) with 128.
    pose proof (Z.div_mod x 128 ltac:(lia)). lia.
Qed.

(** Continuation bits: set on all bytes but the last. *)
Lemma framed_uvarint x : 0 <= x -> framed (uvarint x) = true.
Proof.
  revert x. apply groups_ind.
  - intros x Hx. rewrite uvarint_small by lia. cbn [framed].
    rewrite byte_of_low7 by lia. now rewrite continues_byte_of_low.
  - intros x Hx IH. rewrite uvarint_step by exact Hx.
    destruct (uvarint (Z.shiftr x 7)) as [|b bs] eqn:E;
      [now apply uvarint_nonempty in E|].
    cbn [framed] in IH |- *. rewrite land_127.
    rewrite continues_byte_of by (apply Z.mod_pos_bound; lia).
    exact IH.
Qed.

Lemma last_payload_uvarint x :
  0 <= x -> 0 < x -> Z.land (Z_of_byte (List.last (uvarint x) x00)) 0x7f <> 0.
Proof.
  revert x.
  apply (groups_ind (fun x =>
    0 < x -> Z.land (Z_of_byte (List.last (uvarint x) x00)) 0x7f <> 0)).
  - intros x Hx Hpos. rewrite uvarint_small by lia. cbn [List.last].
    rewrite byte_of_low7, Z_of_byte_of, land_127 by lia.
    rewrite (Z.mod_small x 256), (Z.mod_small x 128) by lia. lia.
  - intros x Hx IH _. rewrite uvarint_step by exact Hx.
    destruct (uvarint (Z.shiftr x 7)) as [|b bs] eqn:E;
      [now apply uvarint_nonempty in E|].
    change (List.last (?a :: b :: bs) x00) with (List.last (b :: bs) x00).
    apply IH. rewrite Z.shiftr_div_pow2 by lia. change (2 ^ 7) with 128.
    apply Z.div_str_pos. lia.
Qed.

(** A multi-byte encoding never ends in an all-zero group. *)
Lemma unpadded_uvarint x : 0 <= x -> unpadded (uvarint x) = true.
Proof.
  intros Hx. destruct (Z_lt_ge_dec x 128) as [Hlt|Hge].
  - now rewrite uvarint_small by lia.
  - pose proof (last_payload_uvarint x Hx ltac:(lia)) as Hlast.
    rewrite uvarint_step in Hlast |- * by lia.
    destruct (uvarint (Z.shiftr x 7)) as [|b bs] eqn:E;
      [now apply uvarint_nonempty in E|].
    cbn [unpadded]. apply negb_true_iff, Z.eqb_neq. exact Hlast.
Qed.

Lemma uvarint_value_pos bs :
  bs <> [] -> Z.land (Z_of_byte (List.last bs x00)) 0x7f <> 0 -> 0 < uvarint_value bs.
Proof.
  induction bs as [|b [|b' bs] IH]; intros Hne Hlast; [congruence| |].
  - cbn [uvarint_value List.last] in *.
    rewrite land_127 in *.
    pose proof (Z.mod_pos_bound (Z_of_byte b) 128 ltac:(lia)). lia.
  - change (List.last (b :: b' :: bs) x00) with (List.last (b' :: bs) x00) in Hlast.
    specialize (IH ltac:(discriminate) Hlast).
    change (uvarint_value (b :: b' :: bs))
      with (Z.land (Z_of_byte b) 0x7f + 128 * uvarint_value (b' :: bs)).
    rewrite land_127.
    pose proof (Z.mod_pos_bound (Z_of_byte b) 128 ltac:(lia)). lia.
Qed.

(** The format has exactly one encoding per number. *)
Lemma uvarint_unique bs : forall x,
  framed bs = true -> unpadded bs = true -> uvarint_value bs = x ->
  bs = uvarint x.
Proof.
  induction bs as [|b [|b' bs] IH]; intros x Hfr Hpad Hval; [discriminate| |].
  - cbn [framed uvarint_value] in *.
    apply negb_true_iff, continues_false in Hfr.
    rewrite land_127, <- Hfr, Z.mul_0_r, Z.add_0_r in Hval. subst x.
    pose proof (Z.mod_pos_bound (Z_of_byte b) 128 ltac:(lia)) as Hr.
    rewrite uvarint_small, byte_of_low7 by lia.
    now rewrite byte_of_Z_of.
  - change (framed (b :: b' :: bs)) with (continues b && framed (b' :: bs)) in Hfr.
    apply andb_true_iff in Hfr as [Hb Hfr].
    change (uvarint_value (b :: b' :: bs))
      with (Z.land (Z_of_byte b) 0x7f + 128 * uvarint_value (b' :: bs)) in Hval.
    rewrite land_127 in Hval.
    pose proof (Z.mod_pos_bound (Z_of_byte b) 128 ltac:(lia)) as Hr.
    assert (Hlast : Z.land (Z_of_byte (List.last (b' :: bs) x00)) 0x7f <> 0).
    { cbn [unpadded] in Hpad. apply negb_true_iff, Z.eqb_neq in Hpad. exact Hpad. }
    pose proof (uvarint_value_pos (b' :: bs) ltac:(discriminate) Hlast) as Hpos.
    subst x. rewrite uvarint_step by lia.
    rewrite land_127, mod128_digits, shiftr7_digits by lia.
    rewrite <- (continues_true b Hb), byte_of_Z_of. f_equal.
    apply IH; [exact Hfr| |reflexivity].
    destruct bs as [|b'' bs]; [reflexivity|].
    cbn [unpadded]. apply negb_true_iff, Z.eqb_neq. exact Hlast.
Qed.

(** No framed byte string with the same value is shorter. *)
Lemma uvarint_shortest bs : forall x,
  framed bs = true -> uvarint_value bs = x ->
  (length (uvarint x) <= length bs)%nat.
Proof.
  induction bs as [|b [|b' bs] IH]; intros x Hfr Hval; [discriminate| |].
  - cbn [framed uvarint_value] in *.
    apply negb_true_iff, continues_false in Hfr.
    rewrite land_127, <- Hfr, Z.mul_0_r, Z.add_0_r in Hval. subst x.
    pose proof (Z.mod_pos_bound (Z_of_byte b) 128 ltac:(lia)) as Hr.
    rewrite uvarint_length, groups_small by lia. cbn. lia.
  - change (framed (b :: b' :: bs)) with (continues b && framed (b' :: bs)) in Hfr.
    apply andb_true_iff in Hfr as [Hb Hfr].
    change (uvarint_value (b :: b' :: bs))
      with (Z.land (Z_of_byte b) 0x7f + 128 * uvarint_value (b' :: bs)) in Hval.
    rewrite land_127 in Hval.
    pose proof (Z.mod_pos_bound (Z_of_byte b) 128 ltac:(lia)) as Hr.
    pose proof (uvarint_value_nonneg (b' :: bs)) as Hnn.
    specialize (IH _ Hfr eq_refl).
    destruct (Z_lt_ge_dec x 128) as [Hlt|Hge].
    + rewrite uvarint_length, groups_small by lia. cbn [length]. lia.
    + subst x. rewrite uvarint_step by lia.
      rewrite shiftr7_digits by lia.
      cbn [length] in *. lia.
Qed.

(** ** The varint writers *)

(** C8: for every unsigned 64-bit [x], [WriteUvarint] and [writeUvarint]
    both hand the writer, in one [Write], exactly the minimal little-endian
    base-128 encoding of [x]: the bytes decode to [x] seven bits at a time,
    the continuation bit is set on all bytes but the last, a value below 128
    takes one byte, no framed byte string of the same value is shorter, the
    encoding carries no trailing zero group, and it is the only byte string
    with these properties. *)
Theorem WriteUvarint_minimal_varint {W} `{Writer W} (w : W) (x : Z) :
  is_uint64 x ->
  WriteUvarint w x = Ok (write w (uvarint x)) /\
  writeUvarint w x = Ok (write w (uvarint x)) /\
  uvarint_value (uvarint x) = x /\
  framed (uvarint x) = true /\
  unpadded (uvarint x) = true /\
  (x < 128 -> length (uvarint x) = 1%nat) /\
  (forall bs, framed bs = true -> uvarint_value bs = x ->
              (length (uvarint x) <= length bs)%nat) /\
  (forall bs, framed bs = true -> unpadded bs = true -> uvarint_value bs = x ->
              bs = uvarint x).
Proof.
  intros Hx. pose proof Hx as [Hx0 _].
  split; [now apply WriteUvarint_spec|].
  split; [now apply writeUvarint_spec|].
  split; [now apply uvarint_value_uvarint|].
  split; [now apply framed_uvarint|].
  split; [now apply unpadded_uvarint|].
  split; [intros Hlt; now rewrite uvarint_length, groups_small|].
  split.
  - intros bs Hfr Hval. now apply uvarint_shortest.
  - intros bs Hfr Hpad Hval. now apply uvarint_unique.
Qed.

Lemma WriteUvarint_minimal_varint_witness :
  is_uint64 300 /\
  WriteUvarint (W := Buffer) [] 300 = Ok (bytes_of [172; 2]).
Proof.
  assert (Hx : is_uint64 300) by (unfold is_uint64; lia).
  split; [exact Hx|].
  exact (proj1 (WriteUvarint_minimal_varint (W := Buffer) [] 300 Hx)).
Defined.

Section HashingProofs.
Context `{Hash256}.

(** ** Leaves *)

(** C3: [Data(data)] is the digest of the stream [LEAF], varint of
    [len(data)], [data]; being a function of [data] alone, equal inputs give
    equal digests. *)
Theorem Data_stream (data : list byte) :
  len data <= MaxInt ->
  Data data = Ok (sum256 ([byte_of 0] ++ uvarint (len data) ++ data)) /\
  (forall data', data' = data -> Data data' = Data data).
Proof.
  intros Hlen. split; [|now intros data' ->].
  unfold Data.
  assert (Hu : uint64 (len data) = len data).
  { unfold uint64, len, MaxInt in *. apply Z.mod_small. lia. }
  rewrite Hu, WriteUvarint_spec by (unfold is_uint64, len, MaxInt in *; lia).
  cbn [bind]. unfold Sum, write, hasher_Writer, Write, New256, LeafType.
  cbn [absorbed app]. rewrite <- ?app_assoc. reflexivity.
Qed.

(** ** Parents *)

Lemma uint64_range z : is_uint64 (uint64 z).
Proof. unfold is_uint64, uint64. apply Z.mod_pos_bound. lia. Qed.

Lemma Parent_ordered (l r : TreeNode) :
  (let* out := make x00 32 in
   let parentType := [ParentType] in
   let* combinedSize := make x00 MaxVarintLen64 in
   let* '(combinedSize, n) := PutUvarint combinedSize (uint64 (Size l + Size r)) in
   let* sz := slice combinedSize 0 n in
   let buffers := [parentType; sz; Hash l; Hash r] in
   let hash := New256 in
   let hash := fold_left Write buffers hash in
   let* out0 := slice out 0 0 in
   Ok (Sum hash out0))
  = Ok (sum256 ([byte_of 1] ++ uvarint (uint64 (Size l + Size r))
                  ++ Hash l ++ Hash r)).
Proof.
  pose proof (uint64_range (Size l + Size r)) as Hx.
  pose proof (groups_uint64 _ Hx) as Hg.
  rewrite !make_ok by (unfold MaxVarintLen64; lia). cbn [bind].
  rewrite PutUvarint_spec;
    [|exact Hx|bounds].
  cbn [bind].
  rewrite slice_ok;
    [|lia|unfold len; rewrite length_app, uvarint_length; lia].
  cbn [bind]. rewrite Z.sub_0_r, Nat2Z.id. change (Z.to_nat 0) with 0%nat.
  rewrite drop_0, take_app_length' by (now rewrite uvarint_length).
  rewrite slice_ok by (unfold len; lia). cbn [bind].
  unfold Sum, Write, New256, ParentType. cbn [fold_left absorbed app take].
  rewrite <- ?app_assoc. reflexivity.
Qed.

(** C1: [Parent(a, b)] is the digest of [PARENT], the varint of
    [a.Size + b.Size] (added modulo 2^64), the hash of the node with the
    smaller index, then the hash of the other; with equal indices [a] stays
    on the left. *)
Theorem Parent_stream (a b : TreeNode) :
  let stream (l r : TreeNode) :=
    [byte_of 1] ++ uvarint (uint64 (Size a + Size b)) ++ Hash l ++ Hash r in
  (Index a < Index b -> Parent a b = Ok (sum256 (stream a b))) /\
  (Index b < Index a -> Parent a b = Ok (sum256 (stream b a))) /\
  (Index a = Index b -> Parent a b = Ok (sum256 (stream a b))).
Proof.
  intros stream. unfold stream, Parent.
  repeat split; intros Hidx.
  - rewrite (proj2 (Z.ltb_ge (Index b) (Index a))) by lia. apply Parent_ordered.
  - rewrite (proj2 (Z.ltb_lt (Index b) (Index a))) by lia.
    rewrite (Z.add_comm (Size a)). apply Parent_ordered.
  - rewrite (proj2 (Z.ltb_ge (Index b) (Index a))) by lia. apply Parent_ordered.
Qed.

(** C5: with distinct indices the order of the arguments does not matter. *)
Theorem Parent_comm (a b : TreeNode) :
  Index a <> Index b -> Parent a b = Parent b a.
Proof.
  intros Hne. unfold Parent.
  destruct (Z.ltb_spec (Index b) (Index a)) as [Hba|Hab];
    destruct (Z.ltb_spec (Index a) (Index b)) as [Hab'|Hba']; try lia.
  - rewrite !Parent_ordered. reflexivity.
  - rewrite !Parent_ordered. reflexivity.
Qed.

(** ** Roots *)

(** What one root contributes to the stream. *)
Lemma Tree_body_spec (hash : hasher) (r : TreeNode) :
  wf_node r ->
  Tree_body hash r
  = Ok (Hasher (absorbed hash ++ Hash r ++ uvarint (Index r) ++ uvarint (Size r))).
Proof.
  intros [Hi Hs]. unfold Tree_body.
  rewrite writeUvarint_spec by exact Hi. cbn [bind].
  rewrite writeUvarint_spec by exact Hs.
  unfold write, hasher_Writer, Write. cbn [absorbed].
  now rewrite <- !app_assoc.
Qed.

Lemma Tree_loop_spec (roots : list TreeNode) : forall hash,
  Forall wf_node roots ->
  foldM Tree_body hash roots
  = Ok (Hasher (absorbed hash ++
                concat (map (fun r => Hash r ++ uvarint (Index r) ++ uvarint (Size r))
                            roots))).
Proof.
  induction roots as [|r roots IH]; intros hash Hwf; cbn [foldM map concat].
  - rewrite app_nil_r. now destruct hash.
  - apply Forall_cons in Hwf as [Hr Hwf].
    rewrite Tree_body_spec by exact Hr. cbn [bind].
    rewrite IH by exact Hwf. cbn [absorbed].
    now rewrite <- !app_assoc.
Qed.

(** The tail of [Tree] after the loop: the digest lands in [out[:0]]. *)
Lemma Tree_sum (hash : hasher) (out : option (list byte)) :
  (let* out := match out with
               | None => make x00 32
               | Some out => Ok out
               end in
   let* out0 := slice out 0 0 in
   Ok (Sum hash out0))
  = Ok (sum256 (absorbed hash)).
Proof.
  destruct out as [out|].
  - cbn [bind]. rewrite slice_ok by (unfold len; lia). reflexivity.
  - rewrite make_ok by lia. cbn [bind].
    rewrite slice_ok by (unfold len; lia). reflexivity.
Qed.

(** C2: [Tree(roots, nil)] is the digest of [ROOT] followed, root by root
    in the order given, by the root's hash and the varints of its index and
    size; for no roots at all it is the digest of the single byte [ROOT]. *)
Theorem Tree_stream (roots : list TreeNode) :
  Forall wf_node roots ->
  Tree roots None
  = Ok (sum256 ([byte_of 2] ++
                concat (map (fun r => Hash r ++ uvarint (Index r) ++ uvarint (Size r))
                            roots))) /\
  Tree [] None = Ok (sum256 [byte_of 2]).
Proof.
  intros Hwf. split.
  - unfold Tree. rewrite Tree_loop_spec by exact Hwf.
    exact (Tree_sum _ None).
  - exact (Tree_sum _ None).
Qed.

(** C10: the digest returned by [Tree(roots, out)] is the one returned by
    [Tree(roots, nil)], whether [out] is [nil] or not and whatever it holds;
    it has 32 bytes. *)
Theorem Tree_out_irrelevant (roots : list TreeNode) (out : option (list byte)) :
  Tree roots out = Tree roots None /\
  (Forall wf_node roots ->
   exists digest, Tree roots out = Ok digest /\ length digest = 32%nat).
Proof.
  split.
  - unfold Tree. destruct (foldM Tree_body _ roots) as [hash|p]; [|reflexivity].
    exact (eq_trans (Tree_sum hash out) (eq_sym (Tree_sum hash None))).
  - intros Hwf. unfold Tree. rewrite Tree_loop_spec by exact Hwf.
    eexists. split; [exact (Tree_sum _ out)|]. apply sum256_length.
Qed.

(** ** Discovery keys *)

(** C6: [DiscoveryKey(publicKey)] is the digest of the nine ASCII bytes of
    ["hypercore"] followed by [publicKey]; it has 32 bytes and depends on
    [publicKey] alone. *)
Theorem DiscoveryKey_stream (publicKey : list byte) :
  DiscoveryKey publicKey
  = sum256 (String.list_byte_of_string "hypercore"%string ++ publicKey) /\
  length (String.list_byte_of_string "hypercore"%string) = 9%nat /\
  length (DiscoveryKey publicKey) = 32%nat /\
  (forall publicKey', publicKey' = publicKey ->
                      DiscoveryKey publicKey' = DiscoveryKey publicKey).
Proof.
  assert (Hd : DiscoveryKey publicKey
               = sum256 (String.list_byte_of_string "hypercore"%string ++ publicKey)).
  { reflexivity. }
  split; [exact Hd|]. split; [reflexivity|]. split.
  - rewrite Hd. apply sum256_length.
  - now intros publicKey' ->.
Qed.

End HashingProofs.

(** ** Namespaces *)

Lemma copy_length {A} (dst src : list A) : length (copy dst src) = length dst.
Proof.
  unfold copy. rewrite length_app, length_take, length_drop. lia.
Qed.

Lemma copy_same_length {A} (dst src : list A) :
  length dst = length src -> copy dst src = src.
Proof.
  intros Hlen. unfold copy.
  rewrite take_ge, drop_ge by lia. apply app_nil_r.
Qed.

Lemma load_ok {A} (s : list A) i a :
  0 <= i -> s !! Z.to_nat i = Some a -> load s i = Ok a.
Proof.
  intros Hi Hlook. unfold load.
  pose proof (lookup_lt_Some _ _ _ Hlook) as Hlt.
  rewrite (proj2 (Z.leb_le 0 i)), (proj2 (Z.ltb_lt i (len s))) by (unfold len; lia).
  cbn [andb]. now rewrite Hlook.
Qed.

Lemma window_ok (buf : list byte) lo hi :
  0 <= lo <= hi -> hi <= len buf -> window buf lo hi = Ok (Some (View lo hi)).
Proof.
  intros Hlo Hhi. unfold window.
  now rewrite (proj2 (Z.leb_le 0 lo)), (proj2 (Z.leb_le lo hi)),
    (proj2 (Z.leb_le hi (len buf))) by lia.
Qed.

Lemma window_inv (buf : list byte) lo hi v :
  window buf lo hi = Ok v ->
  v = Some (View lo hi) /\ 0 <= lo <= hi /\ hi <= len buf.
Proof.
  unfold window.
  destruct (Z.leb_spec 0 lo), (Z.leb_spec lo hi), (Z.leb_spec hi (len buf));
    cbn [andb]; intros Hw; inversion Hw; subst; lia || (split; [reflexivity|lia]).
Qed.

Lemma store_inv {A} (s : list A) i v s' :
  store s i v = Ok s' -> s' = <[Z.to_nat i := v]> s /\ 0 <= i < len s.
Proof.
  unfold store.
  destruct (Z.leb_spec 0 i), (Z.ltb_spec i (len s));
    cbn [andb]; intros Hs; inversion Hs; subst. split; [reflexivity|lia].
Qed.

Lemma load_inv {A} (s : list A) i a :
  load s i = Ok a -> s !! Z.to_nat i = Some a.
Proof.
  unfold load.
  destruct ((0 <=? i) && (i <? len s)); [|discriminate].
  destruct (s !! Z.to_nat i); [|discriminate]. now intros [= ->].
Qed.

Lemma copy_view_length (buf : list byte) l h src :
  0 <= l <= h -> h <= len buf ->
  length (copy_view buf (Some (View l h)) src) = length buf.
Proof.
  intros Hlo Hhi. unfold copy_view, read, len in *. cbn [lo hi].
  rewrite !length_app, copy_length, !length_take, !length_drop. lia.
Qed.

(** A loop whose round [x] panics in every state the earlier rounds can
    leave behind panics as a whole. *)
Lemma foldM_panics {S A} (f : S -> A -> result S) (I : S -> Prop) l1 x l2 :
  (forall s y s', I s -> f s y = Ok s' -> I s') ->
  (forall s, I s -> exists p, f s x = Panic p) ->
  forall s, I s -> exists p, foldM f s (l1 ++ x :: l2) = Panic p.
Proof.
  intros Hkeep Hx. induction l1 as [|y l1 IH]; intros s Hs; cbn [app foldM].
  - destruct (Hx s Hs) as [p ->]. now exists p.
  - destruct (f s y) as [s'|p] eqn:E; cbn [bind].
    + apply IH. now apply (Hkeep s y).
    + now exists p.
Qed.

Section NamespaceProofs.
Context `{Hash256}.

Lemma Namespace_id_length name i : length (Namespace_id name i) = 32%nat.
Proof. apply sum256_length. Qed.

Lemma chunks_length name k :
  length (concat (map (fun j : nat => Namespace_id name (Z.of_nat j)) (seq 0 k)))
  = (32 * k)%nat.
Proof.
  induction k as [|k IH]; [reflexivity|].
  rewrite seq_S, map_app, concat_app, length_app, IH. cbn [map concat Nat.add].
  rewrite app_nil_r, Namespace_id_length. lia.
Qed.

Lemma ids_after_length k n : (k <= n)%nat -> length (ids_after k n) = n.
Proof.
  intros Hk. unfold ids_after.
  rewrite length_app, List.length_map, List.length_seq, length_replicate. lia.
Qed.

Lemma buf_after_length name k n : (k <= n)%nat -> length (buf_after name k n) = (32 * n)%nat.
Proof.
  intros Hk. unfold buf_after.
  rewrite length_app, chunks_length, length_replicate. lia.
Qed.

(** Filling slot [k] of the header table. *)
Lemma ids_after_step k n v :
  (k < n)%nat ->
  v = Some (View (Z.of_nat k * 32) ((Z.of_nat k + 1) * 32)) ->
  <[k := v]> (ids_after k n) = ids_after (S k) n.
Proof.
  intros Hk ->. unfold ids_after.
  rewrite seq_S, map_app, <- app_assoc. cbn [map app Nat.add].
  replace (n - k)%nat with (S (n - S k)) by lia. cbn [replicate].
  set (l := map _ (seq 0 k)).
  assert (Hl : length l = k) by (unfold l; now rewrite List.length_map, List.length_seq).
  rewrite insert_app_r_alt by lia.
  rewrite Hl, Nat.sub_diag. reflexivity.
Qed.

(** Copying the digest into window [k] of the shared array. *)
Lemma buf_after_step name k n :
  (k < n)%nat ->
  copy_view (buf_after name k n)
            (Some (View (Z.of_nat k * 32) ((Z.of_nat k + 1) * 32)))
            (Namespace_id name (Z.of_nat k))
  = buf_after name (S k) n.
Proof.
  intros Hk. unfold copy_view, read, buf_after. cbn [lo hi].
  set (A := concat (map _ (seq 0 k))).
  assert (HA : length A = (32 * k)%nat) by apply chunks_length.
  replace (Z.to_nat (Z.of_nat k * 32)) with (length A) by lia.
  replace (Z.to_nat ((Z.of_nat k + 1) * 32)) with (length A + 32)%nat by lia.
  replace (Z.to_nat ((Z.of_nat k + 1) * 32 - Z.of_nat k * 32)) with 32%nat by lia.
  rewrite take_app_length, !drop_app_length.
  replace (32 * (n - k))%nat with (32 + 32 * (n - S k))%nat by lia.
  rewrite take_replicate_add.
  rewrite copy_same_length
    by (now rewrite length_replicate, Namespace_id_length).
  rewrite drop_app_add, drop_replicate_add.
  rewrite seq_S, map_app, concat_app. cbn [map concat Nat.add].
  rewrite app_nil_r, <- app_assoc. reflexivity.
Qed.

Lemma int_mul32 (k : Z) : 0 <= k < 2 ^ 58 -> int (k * 32) = k * 32.
Proof. intros Hk. apply int_id. bounds. Qed.

(** One round of the loop, from the state after [k] rounds. *)
Lemma Namespace_body_spec name (k n : nat) b hash :
  (k < n)%nat -> Z.of_nat n < 2 ^ 58 ->
  Namespace_body (ids_after k n, buf_after name k n, sum256 name ++ [b], hash)
                 (Z.of_nat k)
  = Ok (ids_after (S k) n, buf_after name (S k) n,
        sum256 name ++ [byte_of (Z.of_nat k)],
        Hasher (sum256 name ++ [byte_of (Z.of_nat k)])).
Proof.
  intros Hk Hn. unfold Namespace_body.
  rewrite int_mul32 by lia.
  rewrite (int_id (Z.of_nat k + 1)) by bounds.
  rewrite int_mul32 by lia.
  rewrite window_ok
    by (unfold len; rewrite ?buf_after_length by lia; lia).
  cbn [bind].
  rewrite store_ok by (unfold len; rewrite ids_after_length by lia; lia).
  cbn [bind]. rewrite Nat2Z.id.
  rewrite (ids_after_step k n _ Hk eq_refl).
  rewrite store_ok by (unfold len; rewrite length_app, sum256_length; cbn; lia).
  cbn [bind].
  assert (Hns : <[Z.to_nat 32 := byte_of (Z.of_nat k)]> (sum256 name ++ [b])
                = sum256 name ++ [byte_of (Z.of_nat k)]).
  { rewrite insert_app_r_alt by (rewrite sum256_length; lia).
    rewrite sum256_length. reflexivity. }
  rewrite Hns.
  rewrite (load_ok _ _ (Some (View (Z.of_nat k * 32) ((Z.of_nat k + 1) * 32))));
    [|lia|].
  - cbn [bind]. unfold Sum, Write, Reset. cbn [absorbed app].
    change (sum256 (sum256 name ++ [byte_of (Z.of_nat k)]))
      with (Namespace_id name (Z.of_nat k)).
    now rewrite buf_after_step by exact Hk.
  - rewrite Nat2Z.id. unfold ids_after.
    rewrite lookup_app_l by (rewrite List.length_map, List.length_seq; lia).
    rewrite seq_S, map_app. cbn [map Nat.add].
    rewrite lookup_app_r by (rewrite List.length_map, List.length_seq; lia).
    rewrite List.length_map, List.length_seq, Nat.sub_diag. reflexivity.
Qed.

(** The whole loop, from round [k] on. *)
Lemma Namespace_loop_spec name (n : nat) :
  Z.of_nat n < 2 ^ 58 ->
  forall (m k : nat) b hash,
    (k + m = n)%nat ->
    exists b' hash',
      foldM Namespace_body
            (ids_after k n, buf_after name k n, sum256 name ++ [b], hash)
            (seqZ (Z.of_nat k) (Z.of_nat m))
      = Ok (ids_after n n, buf_after name n n, sum256 name ++ [b'], hash').
Proof.
  intros Hn. induction m as [|m IH]; intros k b hash Hkm.
  - replace k with n by lia. exists b, hash. reflexivity.
  - rewrite seqZ_cons by lia. cbn [foldM].
    rewrite Namespace_body_spec by lia. cbn [bind].
    replace (Z.succ (Z.of_nat k)) with (Z.of_nat (S k)) by lia.
    replace (Z.pred (Z.of_nat (S m))) with (Z.of_nat m) by lia.
    apply IH. lia.
Qed.

(** Reading window [j] back from the finished array. *)
Lemma read_chunk name (n j : nat) :
  (j < n)%nat ->
  read (buf_after name n n)
       (Some (View (Z.of_nat j * 32) ((Z.of_nat j + 1) * 32)))
  = Namespace_id name (Z.of_nat j).
Proof.
  intros Hj. unfold read, buf_after. cbn [lo hi].
  replace n with (j + S (n - S j))%nat at 1 by lia.
  rewrite seq_app, map_app, concat_app. cbn [seq map concat Nat.add].
  set (A := concat (map _ (seq 0 j))).
  assert (HA : length A = (32 * j)%nat) by apply chunks_length.
  replace (Z.to_nat (Z.of_nat j * 32)) with (length A) by lia.
  replace (Z.to_nat ((Z.of_nat j + 1) * 32 - Z.of_nat j * 32)) with 32%nat by lia.
  rewrite <- !app_assoc, drop_app_length.
  apply take_app_length'. now rewrite Namespace_id_length.
Qed.

Lemma read_ids_after name (n : nat) :
  map (read (buf_after name n n)) (ids_after n n)
  = map (fun j : nat => Namespace_id name (Z.of_nat j)) (seq 0 n).
Proof.
  unfold ids_after. rewrite Nat.sub_diag. cbn [replicate].
  rewrite app_nil_r, List.map_map.
  apply List.map_ext_in. intros j Hj. apply List.in_seq in Hj.
  apply read_chunk. lia.
Qed.

(** [Namespace] returns for every count whose byte size fits an [int]. *)
Lemma Namespace_returns name count :
  0 <= count < 2 ^ 58 ->
  Namespace name count
  = Ok (map (fun j : nat => Namespace_id name (Z.of_nat j)) (seq 0 (Z.to_nat count))).
Proof.
  intros Hc. unfold Namespace.
  rewrite make_ok by lia. cbn [bind].
  rewrite (int_id (32 * count)) by bounds.
  rewrite make_ok by lia. cbn [bind].
  rewrite make_ok by lia. cbn [bind].
  set (n := Z.to_nat count).
  assert (Hids : replicate n (@None view) = ids_after 0 n).
  { unfold ids_after. cbn [seq map app]. now rewrite Nat.sub_0_r. }
  assert (Hbuf : replicate (Z.to_nat (32 * count)) x00 = buf_after name 0 n).
  { unfold buf_after. cbn [seq map concat app]. rewrite Nat.sub_0_r.
    f_equal. lia. }
  assert (Hns : copy (replicate (Z.to_nat 33) x00) (Sum (Write New256 name) [])
                = sum256 name ++ [x00]).
  { unfold copy, Sum, Write, New256. cbn [absorbed app].
    rewrite take_ge by (rewrite sum256_length, length_replicate; lia).
    rewrite sum256_length. reflexivity. }
  rewrite Hns, Hbuf, Hids.
  unfold len. rewrite ids_after_length by lia.
  destruct (Namespace_loop_spec name n ltac:(lia) n 0%nat x00 (Write New256 name)
              ltac:(lia)) as (b' & hash' & Hloop).
  change (Z.of_nat 0) with 0 in Hloop.
  rewrite Hloop. cbn [bind].
  now rewrite read_ids_after.
Qed.

Lemma Namespace_negative name count :
  count < 0 -> Namespace name count = Panic MakeLenOutOfRange.
Proof.
  intros Hc. unfold Namespace. now rewrite make_negative by exact Hc.
Qed.

(** Each round leaves the length of the shared array alone. *)
Lemma Namespace_body_len st i st' :
  Namespace_body st i = Ok st' ->
  len (snd (fst (fst st'))) = len (snd (fst (fst st))).
Proof.
  destruct st as [[[ids buf] ns] hash]. unfold Namespace_body.
  destruct (window buf _ _) as [v|] eqn:Ew; [|discriminate].
  apply window_inv in Ew as (-> & Hlo & Hhi). cbn [bind].
  destruct (store ids i _) as [ids'|] eqn:Ei; [|discriminate].
  apply store_inv in Ei as (-> & Hi). cbn [bind].
  destruct (store ns 32 _) as [ns'|] eqn:En; [|discriminate]. cbn [bind].
  destruct (load _ i) as [dst|] eqn:El; [|discriminate]. cbn [bind].
  apply load_inv in El.
  rewrite list_lookup_insert_eq in El by (unfold len in Hi; lia).
  injection El as <-. intros [= <-]. cbn [fst snd].
  unfold len. f_equal. exact (copy_view_length buf _ _ _ Hlo Hhi).
Qed.

(** Beyond 2^58 the byte size [32*count] no longer fits an [int]: either
    the wrapped size is negative and [make] panics, or the array is too
    short and slicing it panics. *)
Lemma Namespace_overflow name count :
  2 ^ 58 <= count <= MaxInt -> exists p, Namespace name count = Panic p.
Proof.
  intros Hc. unfold Namespace, MaxInt in *.
  rewrite make_ok by lia. cbn [bind].
  set (w := int (32 * count)).
  assert (Hw : exists q, 1 <= q /\ w = 32 * (count - 2 ^ 59 * q)
                         /\ - 2 ^ 63 <= w < 2 ^ 63).
  { exists ((32 * count + 2 ^ 63) / 2 ^ 64). unfold w, int.
    pose proof (Z.div_mod (32 * count + 2 ^ 63) (2 ^ 64) ltac:(lia)) as Hdm.
    pose proof (Z.mod_pos_bound (32 * count + 2 ^ 63) (2 ^ 64) ltac:(lia)) as Hr.
    lia. }
  destruct Hw as (q & Hq & Hwq & Hwr).
  destruct (Z_lt_ge_dec w 0) as [Hneg|Hpos].
  { rewrite make_negative by exact Hneg. now eexists. }
  rewrite make_ok by lia. cbn [bind].
  rewrite make_ok by lia. cbn [bind].
  set (i0 := count - 2 ^ 59 * q) in *.
  unfold len at 1. rewrite length_replicate, Z2Nat.id by lia.
  assert (Hsplit : seqZ 0 count
                   = seqZ 0 i0 ++ i0 :: seqZ (Z.succ i0) (Z.pred (count - i0))).
  { replace count with (i0 + (count - i0)) at 1 by lia.
    rewrite seqZ_app, (seqZ_cons (0 + i0)) by lia. reflexivity. }
  rewrite Hsplit.
  set (st0 := (replicate (Z.to_nat count) (@None view), _, _, _)).
  destruct (foldM_panics Namespace_body
              (fun st => len (snd (fst (fst st))) = w)
              (seqZ 0 i0) i0
              (seqZ (Z.succ i0) (Z.pred (count - i0))))
    with (s := st0) as [p Hp].
  - intros s y s' Hs Hstep. rewrite <- Hs. now apply Namespace_body_len in Hstep.
  - intros [[[ids buf] ns] hash] Hs. cbn [fst snd] in Hs.
    unfold Namespace_body, window. rewrite Hs.
    rewrite (int_id (i0 * 32)), (int_id (i0 + 1)) by bounds.
    assert (Hhi : int ((i0 + 1) * 32) < i0 * 32 \/ w < int ((i0 + 1) * 32)).
    { unfold int.
      pose proof (Z.div_mod ((i0 + 1) * 32 + 2 ^ 63) (2 ^ 64) ltac:(lia)) as Hdm.
      pose proof (Z.mod_pos_bound ((i0 + 1) * 32 + 2 ^ 63) (2 ^ 64) ltac:(lia)) as Hr.
      lia. }
    destruct (Z.leb_spec 0 (i0 * 32)), (Z.leb_spec (i0 * 32) (int ((i0 + 1) * 32))),
      (Z.leb_spec (int ((i0 + 1) * 32)) w); cbn [andb bind]; try lia; now eexists.
  - unfold st0. cbn [fst snd]. unfold len. rewrite length_replicate. lia.
  - rewrite Hp. now exists p.
Qed.

Lemma lookup_map {A B} (f : A -> B) (l : list A) (i : nat) :
  map f l !! i = option_map f (l !! i).
Proof.
  revert i. induction l as [|a l IH]; intros [|i]; cbn; auto.
Qed.

Lemma Namespace_lookup name (n : nat) i :
  0 <= i < Z.of_nat n ->
  map (fun j : nat => Namespace_id name (Z.of_nat j)) (seq 0 n) !! Z.to_nat i
  = Some (Namespace_id name i).
Proof.
  intros Hi. rewrite lookup_map, lookup_seq_lt by lia.
  cbn [option_map Nat.add]. now rewrite Z2Nat.id by lia.
Qed.




End NamespaceProofs.

(** ** Key pairs *)

Lemma Equal_true_iff (a b : list byte) : Equal a b = true <-> a = b.
Proof.
  revert b. induction a as [|x a IH]; intros [|y b]; cbn [Equal];
    try (split; [discriminate|congruence]); [tauto|].
  rewrite andb_true_iff, IH. split.
  - intros [Hxy ->]. now rewrite (Byte.byte_dec_bl _ _ Hxy).
  - intros [= -> ->]. split; [now apply Byte.byte_dec_lb|reflexivity].
Qed.

Lemma copy_zero_padded (tail : list byte) (n : nat) :
  copy (replicate n x00) tail = take n (tail ++ replicate n x00).
Proof.
  unfold copy. rewrite length_replicate, take_app, drop_replicate, take_replicate.
  do 2 f_equal. lia.
Qed.

Lemma second_half (seed public : list byte) :
  length seed = 32%nat -> length public = 32%nat ->
  take 32 (drop 32 (seed ++ public) ++ replicate 32 x00) = public.
Proof.
  intros Hs Hp.
  replace (drop 32 (seed ++ public)) with public
    by (rewrite <- Hs; now rewrite drop_app_length).
  rewrite <- Hp at 1. apply take_app_length.
Qed.

(** [Public] reads the second half of the private key, padded with zeros
    when the key is too short to have one, and panics below 32 bytes. *)
Lemma Public_spec (priv : list byte) :
  (len priv < 32 -> Public priv = Panic SliceBoundsOutOfRange) /\
  (32 <= len priv ->
   Public priv = Ok (take 32 (drop 32 priv ++ replicate 32 x00))).
Proof.
  unfold Public. rewrite make_ok by (unfold PublicKeySize; lia). cbn [bind].
  split; intros Hlen.
  - unfold slice.
    rewrite (proj2 (Z.leb_gt 32 (len priv))) by lia. reflexivity.
  - rewrite slice_ok by lia. cbn [bind].
    rewrite take_ge by (rewrite length_drop; unfold len in *; lia).
    change (Z.to_nat PublicKeySize) with 32%nat. change (Z.to_nat 32) with 32%nat.
    now rewrite copy_zero_padded.
Qed.

(** X11: [ValidateKeyPair] panics on a private key shorter than 32 bytes;
    otherwise it returns, and answers [true] exactly when the public key is
    the 32 bytes that follow the first 32 of the private key (zero-padded
    if there are fewer).  The first 32 bytes, the seed, are never read: any
    32 bytes followed by the public key pass. *)
Theorem ValidateKeyPair_spec (keyPair : KeyPair) :
  (len (PrivateKey keyPair) < 32 ->
   ValidateKeyPair keyPair = Panic SliceBoundsOutOfRange) /\
  (32 <= len (PrivateKey keyPair) ->
   exists ok, ValidateKeyPair keyPair = Ok ok /\
     (ok = true <->
      PublicKey keyPair
      = take 32 (drop 32 (PrivateKey keyPair) ++ replicate 32 x00))) /\
  (forall seed public : list byte,
     length seed = 32%nat -> length public = 32%nat ->
     ValidateKeyPair (mkKeyPair public (seed ++ public)) = Ok true).
Proof.
  split; [|split].
  - intros Hlen. unfold ValidateKeyPair.
    now rewrite (proj1 (Public_spec _) Hlen).
  - intros Hlen. unfold ValidateKeyPair.
    rewrite (proj2 (Public_spec _) Hlen). cbn [bind].
    eexists. split; [reflexivity|].
    rewrite Equal_true_iff. split; congruence.
  - intros seed public Hs Hp. unfold ValidateKeyPair. cbn [PrivateKey PublicKey].
    rewrite (proj2 (Public_spec _))
      by (unfold len; rewrite length_app; lia).
    cbn [bind]. f_equal. apply Equal_true_iff. now apply second_half.
Qed.

Section KeyPairProofs.
Context `{Ed25519}.

Lemma NewKeyFromSeed_spec (seed : list byte) :
  length seed = 32%nat ->
  NewKeyFromSeed seed = Returns (seed ++ publicKeyOfSeed seed).
Proof.
  intros Hs. unfold NewKeyFromSeed.
  replace (len seed =? SeedSize) with true
    by (symmetry; apply Z.eqb_eq; unfold len, SeedSize; lia).
  cbn [negb]. rewrite make_ok by (unfold PrivateKeySize; lia). cbn [run].
  change (Z.to_nat PrivateKeySize) with 64%nat.
  assert (Hcopy : copy (replicate 64 x00) seed = seed ++ replicate 32 x00).
  { unfold copy. rewrite length_replicate, take_ge, Hs by lia. reflexivity. }
  rewrite Hcopy.
  rewrite slice_ok by (unfold len; rewrite ?length_app, ?length_replicate; lia).
  cbn [run]. f_equal.
  rewrite <- Hs at 1. rewrite take_app_length. f_equal.
  replace (Z.to_nat 32) with (length seed) by lia.
  rewrite drop_app_length, take_ge
    by (unfold len; rewrite length_app, length_replicate; lia).
  apply copy_same_length.
  now rewrite length_replicate, publicKeyOfSeed_length.
Qed.


End KeyPairProofs.

(** ** Reading a varint back *)

Lemma lor_shifted acc d s :
  0 <= s -> 0 <= acc < 2 ^ s -> 0 <= d ->
  Z.lor acc (Z.shiftl d s) = acc + d * 2 ^ s.
Proof.
  intros Hs Hacc Hd. rewrite <- Z.shiftl_mul_pow2 by exact Hs.
  symmetry. apply Z.add_nocarry_lor.
  apply Z.bits_inj'. intros n Hn. rewrite Z.land_spec, Z.bits_0.
  destruct (Z_lt_ge_dec n s) as [Hlt|Hge].
  - rewrite Z.shiftl_spec_low by exact Hlt. apply andb_false_r.
  - destruct (Z.eq_dec acc 0) as [->|Hne]; [now rewrite Z.bits_0|].
    rewrite Z.bits_above_log2; [reflexivity|lia|].
    apply Z.lt_le_trans with s; [apply Z.log2_lt_pow2; lia|lia].
Qed.

(** The reading loop on an encoding that continues a value read so far. *)
Lemma ReadUvarint_loop_spec (n : nat) : forall y acc s i rest,
  0 <= y -> 0 <= i -> s = 7 * i -> Z.of_nat n + i = 10 ->
  0 <= acc < 2 ^ s -> acc + y * 2 ^ s < 2 ^ 64 ->
  (groups y <= n)%nat ->
  ReadUvarint_loop n (uvarint y ++ rest) acc s i = (acc + y * 2 ^ s, None, rest).
Proof.
  induction n as [|n IH]; intros y acc s i rest Hy Hi Hs Hn Hacc Hfit Hg.
  { unfold groups in Hg. lia. }
  assert (Hpow : 0 < 2 ^ s) by (apply Z.pow_pos_nonneg; lia).
  destruct (Z_lt_le_dec y 128) as [Hlt|Hge].
  - rewrite uvarint_small, byte_of_low7 by lia.
    cbn [app ReadUvarint_loop ReadByte].
    rewrite Z_of_byte_of, Z.mod_small by lia.
    rewrite (proj2 (Z.ltb_lt y 128)) by exact Hlt.
    assert (Hlast : (i =? MaxVarintLen64 - 1) && (1 <? y) = false).
    { destruct (Z.eqb_spec i (MaxVarintLen64 - 1)) as [Hi9|Hi9]; [|reflexivity].
      cbn [andb]. apply Z.ltb_ge. unfold MaxVarintLen64 in Hi9. subst i s.
      change (2 ^ (7 * (10 - 1))) with (2 ^ 63) in *. lia. }
    rewrite Hlast.
    rewrite Z.shiftl_mul_pow2 by lia.
    unfold uint64. rewrite Z.mod_small by nia.
    rewrite <- Z.shiftl_mul_pow2 by lia.
    rewrite lor_shifted by lia. now rewrite ?Z.shiftl_mul_pow2 by lia.
  - rewrite uvarint_step by exact Hge.
    cbn [app ReadUvarint_loop ReadByte].
    rewrite land_127.
    pose proof (Z.mod_pos_bound y 128 ltac:(lia)) as Hd.
    rewrite Z_of_byte_of, (Z.mod_small (y mod 128 + 128) 256) by lia.
    rewrite (proj2 (Z.ltb_ge (y mod 128 + 128) 128)) by lia.
    rewrite land_127.
    replace ((y mod 128 + 128) mod 128) with (y mod 128)
      by (replace (y mod 128 + 128) with (y mod 128 + 1 * 128) by lia;
          now rewrite Z.mod_add, Z.mod_mod by lia).
    assert (Hsplit : y = 128 * Z.shiftr y 7 + y mod 128).
    { rewrite Z.shiftr_div_pow2 by lia. apply Z.div_mod. lia. }
    assert (Hy' : 0 <= Z.shiftr y 7)
      by (rewrite Z.shiftr_div_pow2 by lia; apply Z.div_pos; lia).
    assert (Hpow7 : 2 ^ (s + 7) = 128 * 2 ^ s)
      by (rewrite Z.pow_add_r by lia; lia).
    rewrite Z.shiftl_mul_pow2 by lia.
    unfold uint64. rewrite Z.mod_small by nia.
    rewrite <- Z.shiftl_mul_pow2 by lia.
    rewrite lor_shifted by lia. rewrite ?Z.shiftl_mul_pow2 by lia.
    rewrite int_id by bounds.
    rewrite (groups_step y Hge) in Hg.
    rewrite IH by (rewrite ?Hpow7; nia).
    rewrite Hpow7. do 2 f_equal. nia.
Qed.

Lemma ReadUvarint_uvarint (x : Z) (rest : list byte) :
  is_uint64 x -> ReadUvarint (uvarint x ++ rest) = (x, None, rest).
Proof.
  intros Hx. unfold ReadUvarint. pose proof Hx as [Hx0 Hx64].
  pose proof (proj2 (groups_uint64 x Hx)) as Hg.
  change (Z.to_nat MaxVarintLen64) with 10%nat.
  rewrite ReadUvarint_loop_spec by (assumption || (cbn; lia)).
  do 2 f_equal. cbn. lia.
Qed.

(** X1: what [WriteUvarint] appends to a buffer, [ReadUvarint] reads back:
    for every [uint64] it returns the value with no error and leaves
    exactly what followed the encoding.  ([TestWriteUvarint] checks this for
    42 and an otherwise empty buffer.) *)
Theorem ReadUvarint_WriteUvarint (x : Z) (rest : list byte) :
  is_uint64 x ->
  exists buf : Buffer,
    WriteUvarint (W := Buffer) [] x = Ok buf /\
    ReadUvarint (buf ++ rest) = (x, None, rest).
Proof.
  intros Hx. exists (uvarint x). split; [exact (WriteUvarint_spec [] x Hx)|].
  now apply ReadUvarint_uvarint.
Qed.

(** X2: the encodings written for two numbers never run into each other:
    if one encoding followed by some bytes equals another followed by some
    bytes, the numbers and the trailing bytes are the same. *)
Theorem WriteUvarint_prefix_free (x y : Z) (r1 r2 : list byte) :
  is_uint64 x -> is_uint64 y ->
  forall e1 e2 : Buffer,
    WriteUvarint (W := Buffer) [] x = Ok e1 ->
    WriteUvarint (W := Buffer) [] y = Ok e2 ->
    e1 ++ r1 = e2 ++ r2 ->
    x = y /\ r1 = r2.
Proof.
  intros Hx Hy e1 e2 H1 H2 Heq.
  pose proof (ReadUvarint_uvarint x r1 Hx) as Hr1.
  pose proof (ReadUvarint_uvarint y r2 Hy) as Hr2.
  rewrite (WriteUvarint_spec (W := Buffer) [] x Hx) in H1. injection H1 as <-.
  rewrite (WriteUvarint_spec (W := Buffer) [] y Hy) in H2. injection H2 as <-.
  unfold write, Buffer_Writer in Heq. cbn [app] in Heq.
  rewrite Heq, Hr2 in Hr1. now injection Hr1.
Qed.

(** ** Digests and collisions *)

Lemma Ok_inj {A} (a b : A) : Ok a = Ok b -> a = b.
Proof. now intros [= ->]. Qed.

Lemma uvarint_prefix_free (x y : Z) (r1 r2 : list byte) :
  is_uint64 x -> is_uint64 y ->
  uvarint x ++ r1 = uvarint y ++ r2 -> x = y /\ r1 = r2.
Proof.
  intros Hx Hy Heq.
  pose proof (ReadUvarint_uvarint x r1 Hx) as Hr1.
  rewrite Heq, (ReadUvarint_uvarint y r2 Hy) in Hr1. now injection Hr1.
Qed.

Lemma children_sizes (a b : TreeNode) :
  Size (fst (children a b)) + Size (snd (children a b)) = Size a + Size b.
Proof.
  unfold children. destruct (Index b <? Index a); cbn [fst snd]; lia.
Qed.

Section CollisionProofs.
Context `{Hash256}.

Lemma digest_eq (s1 s2 : list byte) :
  sum256 s1 = sum256 s2 -> s1 = s2 \/ collision.
Proof.
  intros Heq. destruct (List.list_eq_dec Byte.byte_eq_dec s1 s2) as [Hs|Hs].
  - now left.
  - right. now exists s1, s2.
Qed.

Lemma Data_digest (data : list byte) :
  len data <= MaxInt ->
  Data data = Ok (sum256 ([LeafType] ++ uvarint (len data) ++ data)).
Proof.
  intros Hlen. unfold Data.
  replace (uint64 (len data)) with (len data)
    by (symmetry; apply Z.mod_small; bounds).
  rewrite WriteUvarint_spec by bounds.
  cbn [bind]. unfold Sum, write, hasher_Writer, Write, New256.
  cbn [absorbed app]. rewrite <- ?app_assoc. reflexivity.
Qed.

Lemma Parent_digest (a b : TreeNode) :
  Parent a b
  = Ok (sum256 ([ParentType]
                  ++ uvarint (uint64 (Size (fst (children a b))
                                      + Size (snd (children a b))))
                  ++ Hash (fst (children a b)) ++ Hash (snd (children a b)))).
Proof.
  unfold Parent, children.
  destruct (Index b <? Index a); cbn [fst snd]; apply Parent_ordered.
Qed.

Lemma Tree_digest (roots : list TreeNode) (out : option (list byte)) :
  Forall wf_node roots ->
  Tree roots out = Ok (sum256 ([RootType] ++ concat (map root_bytes roots))).
Proof.
  intros Hwf. unfold Tree. rewrite Tree_loop_spec by exact Hwf.
  exact (Tree_sum _ out).
Qed.


Lemma root_bytes_inj (r r' : TreeNode) (rest rest' : list byte) :
  wf_node r -> wf_node r' ->
  length (Hash r) = length (Hash r') ->
  root_bytes r ++ rest = root_bytes r' ++ rest' ->
  r = r' /\ rest = rest'.
Proof.
  intros [Hi Hs] [Hi' Hs'] Hlen. unfold root_bytes.
  rewrite <- !app_assoc. intros Heq.
  apply app_inj_1 in Heq as [Hh Heq]; [|exact Hlen].
  apply uvarint_prefix_free in Heq as [Hidx Heq]; [|assumption..].
  apply uvarint_prefix_free in Heq as [Hsz Heq]; [|assumption..].
  split; [|exact Heq].
  destruct r, r'. cbn in *. congruence.
Qed.

Lemma roots_bytes_inj (roots : list TreeNode) : forall roots',
  Forall wf_node roots -> Forall wf_node roots' ->
  Forall (fun r => length (Hash r) = 32%nat) roots ->
  Forall (fun r => length (Hash r) = 32%nat) roots' ->
  concat (map root_bytes roots) = concat (map root_bytes roots') ->
  roots = roots'.
Proof.
  induction roots as [|r roots IH]; intros [|r' roots'] Hwf Hwf' H32 H32' Heq.
  - reflexivity.
  - apply (f_equal length) in Heq. apply Forall_cons in H32' as [Hr' _].
    cbn [map concat] in Heq. unfold root_bytes in Heq.
    rewrite !length_app, Hr' in Heq. cbn [length] in Heq. lia.
  - apply (f_equal length) in Heq. apply Forall_cons in H32 as [Hr _].
    cbn [map concat] in Heq. unfold root_bytes in Heq.
    rewrite !length_app, Hr in Heq. cbn [length] in Heq. lia.
  - apply Forall_cons in Hwf as [Hr Hwf]. apply Forall_cons in Hwf' as [Hr' Hwf'].
    apply Forall_cons in H32 as [Hl H32]. apply Forall_cons in H32' as [Hl' H32'].
    cbn [map concat] in Heq.
    apply root_bytes_inj in Heq as [-> Heq]; [|assumption|assumption|congruence].
    f_equal. now apply IH.
Qed.




(** X7: [Parent] reads the two nodes only through their order, the
    concatenation of their hashes and the sum of their sizes modulo 2^64:
    indices beyond their order, the split of the sum into two sizes and the
    boundary between the two hashes leave no trace in the digest. *)
Theorem Parent_reads (a b a' b' : TreeNode) :
  Hash (fst (children a b)) ++ Hash (snd (children a b))
  = Hash (fst (children a' b')) ++ Hash (snd (children a' b')) ->
  uint64 (Size a + Size b) = uint64 (Size a' + Size b') ->
  Parent a b = Parent a' b'.
Proof.
  intros Hh Hs. rewrite !Parent_digest, Hh, !children_sizes, Hs. reflexivity.
Qed.

(** X8: [Tree] writes each root's hash without its length, so where hashes
    may have any length two adjacent roots cannot be told from the single
    root whose hash is the first root's bytes followed by the second root's
    hash. *)
Theorem Tree_fuse (r1 r2 : TreeNode) (rest : list TreeNode) (out : option (list byte)) :
  wf_node r1 -> wf_node r2 ->
  Tree (r1 :: r2 :: rest) out = Tree (fuse r1 r2 :: rest) out.
Proof.
  intros Hr1 Hr2. unfold Tree. cbn [foldM].
  assert (Hfuse : wf_node (fuse r1 r2)) by exact Hr2.
  rewrite (Tree_body_spec _ r1 Hr1). cbn [bind].
  rewrite (Tree_body_spec _ r2 Hr2), (Tree_body_spec _ (fuse r1 r2) Hfuse).
  cbn [bind absorbed fuse Hash Index Size]. unfold root_bytes.
  now rewrite <- !app_assoc.
Qed.

End CollisionProofs.

(** ** More on namespaces *)

Section NamespaceMore.
Context `{Hash256}.



End NamespaceMore.

(** * The code run on BLAKE2b-256 *)

(** ** Known answers for the hash itself *)

Example blake2b_abc :
  map Z_of_byte (Blake2b.Sum256 (String.list_byte_of_string "abc"%string))
  = [189; 221; 129; 60; 99; 66; 57; 114; 49; 113; 239; 63; 238; 152; 87; 155;
     148; 150; 78; 59; 177; 203; 62; 66; 114; 98; 200; 192; 104; 213; 35; 25].
Proof. vm_compute. reflexivity. Qed.

(** One full block, two full blocks, and two blocks and a half. *)
Example blake2b_blocks :
  let msg (n : nat) := map (fun i : nat => byte_of (Z.of_nat i)) (seq 0 n) in
  map Z_of_byte (take 4 (Blake2b.Sum256 (msg 128%nat))) = [195; 88; 47; 113] /\
  map Z_of_byte (take 4 (Blake2b.Sum256 (msg 256%nat))) = [57; 167; 235; 159] /\
  map Z_of_byte (take 4 (Blake2b.Sum256 (msg 300%nat))) = [58; 72; 110; 63].
Proof. vm_compute. repeat split. Qed.

(** ** The package's tests *)

(** [TestTree]: the digest recorded in the test is the one computed here. *)
Example TestTree :
  Tree test_roots None
  = Ok (bytes_of [242; 226; 9; 169; 94; 179; 197; 163; 227; 228; 62; 34; 147;
                  126; 101; 219; 254; 183; 92; 191; 104; 191; 181; 231; 74;
                  152; 232; 226; 227; 67; 234; 75]).
Proof. vm_compute. reflexivity. Qed.

(** [TestWriteUvarint]: 42 is written as one byte and reads back as 42. *)
Example TestWriteUvarint :
  WriteUvarint (W := Buffer) [] 42 = Ok (bytes_of [42]) /\
  uvarint_value (bytes_of [42]) = 42.
Proof. vm_compute. split; reflexivity. Qed.

(** [TestNamespace]: five identifiers of 32 bytes, pairwise distinct. *)
Example TestNamespace :
  exists ids,
    Namespace test_name 5 = Ok ids /\
    length ids = 5%nat /\
    Forall (fun id => length id = 32%nat) ids /\
    NoDup (map (map Z_of_byte) ids).
Proof.
  eexists. split; [vm_compute; reflexivity|].
  split; [reflexivity|]. split.
  - repeat constructor.
  - apply (bool_decide_unpack _). vm_compute. reflexivity.
Qed.

(** ** The theorems at the tests' inputs *)

Lemma Data_stream_witness :
  len (String.list_byte_of_string "test data"%string) <= MaxInt /\
  Data (String.list_byte_of_string "test data"%string)
  = Ok (sum256 ([byte_of 0] ++ uvarint 9
                  ++ String.list_byte_of_string "test data"%string)).
Proof.
  assert (Hlen : len (String.list_byte_of_string "test data"%string) <= MaxInt)
    by (vm_compute; discriminate).
  split; [exact Hlen|].
  exact (proj1 (Data_stream (String.list_byte_of_string "test data"%string) Hlen)).
Defined.

Lemma Parent_stream_witness :
  Index test_a < Index test_b /\
  Parent test_a test_b
  = Ok (sum256 ([byte_of 1] ++ uvarint 300 ++ Hash test_a ++ Hash test_b)).
Proof.
  assert (Hlt : Index test_a < Index test_b) by (cbn; lia).
  split; [exact Hlt|].
  exact (proj1 (Parent_stream test_a test_b) Hlt).
Defined.

Lemma Parent_comm_witness :
  Index test_a <> Index test_b /\ Parent test_a test_b = Parent test_b test_a.
Proof.
  assert (Hne : Index test_a <> Index test_b) by (cbn; lia).
  split; [exact Hne|].
  exact (Parent_comm test_a test_b Hne).
Defined.

Lemma test_roots_wf : Forall wf_node test_roots.
Proof. repeat constructor; cbn; lia. Qed.

Lemma Tree_stream_witness :
  Forall wf_node test_roots /\
  Tree test_roots None
  = Ok (sum256 (bytes_of [2; 1; 2; 3; 4; 5; 6; 7; 8; 0; 32;
                          9; 10; 11; 12; 13; 14; 15; 16; 1; 64])).
Proof.
  split; [exact test_roots_wf|].
  exact (proj1 (Tree_stream test_roots test_roots_wf)).
Defined.

Lemma Tree_out_irrelevant_witness :
  Forall wf_node test_roots /\
  Tree test_roots (Some (replicate 40 xff)) = Tree test_roots None /\
  exists digest,
    Tree test_roots (Some (replicate 40 xff)) = Ok digest /\
    length digest = 32%nat.
Proof.
  split; [exact test_roots_wf|].
  destruct (Tree_out_irrelevant test_roots (Some (replicate 40 xff))) as [Heq Hret].
  split; [exact Heq|exact (Hret test_roots_wf)].
Defined.

Lemma DiscoveryKey_stream_witness :
  length (DiscoveryKey (replicate 32 x00)) = 32%nat.
Proof.
  exact (proj1 (proj2 (proj2 (DiscoveryKey_stream (replicate 32 x00))))).
Defined.




(** ** Where [Namespace] leaves the description *)



(** ** The further properties at concrete inputs *)

Lemma ReadUvarint_WriteUvarint_witness :
  is_uint64 300 /\
  exists buf : Buffer,
    WriteUvarint (W := Buffer) [] 300 = Ok buf /\
    ReadUvarint (buf ++ bytes_of [7; 8]) = (300, None, bytes_of [7; 8]).
Proof.
  assert (Hx : is_uint64 300) by (unfold is_uint64; lia).
  split; [exact Hx|].
  exact (ReadUvarint_WriteUvarint 300 (bytes_of [7; 8]) Hx).
Defined.

Lemma WriteUvarint_prefix_free_witness :
  (is_uint64 300 /\
   WriteUvarint (W := Buffer) [] 300 = Ok (bytes_of [172; 2]) /\
   bytes_of [172; 2] ++ bytes_of [9] = bytes_of [172; 2] ++ bytes_of [9]) /\
  (300 = 300 /\ bytes_of [9] = bytes_of [9]).
Proof.
  assert (Hx : is_uint64 300) by (unfold is_uint64; lia).
  assert (H1 : WriteUvarint (W := Buffer) [] 300 = Ok (bytes_of [172; 2]))
    by (vm_compute; reflexivity).
  split; [split; [exact Hx|split; [exact H1|reflexivity]]|].
  exact (WriteUvarint_prefix_free 300 300 (bytes_of [9]) (bytes_of [9])
           Hx Hx _ _ H1 H1 eq_refl).
Defined.


Lemma leaves_wf : Forall wf_node [leaf_a; leaf_b].
Proof. repeat constructor; cbn; lia. Qed.

Lemma leaves_32 : Forall (fun r => length (Hash r) = 32%nat) [leaf_a; leaf_b].
Proof. repeat constructor; apply Blake2b.Sum256_length. Qed.




(** Other indices, the hash boundary moved by three bytes, and sizes that
    add up to 300 only after wrapping: the same parent digest. *)
Lemma Parent_reads_witness :
  let a' := mkTreeNode 7 (take 3 (Hash test_a)) (2 ^ 64 - 1) in
  let b' := mkTreeNode 9 (drop 3 (Hash test_a) ++ Hash test_b) 301 in
  (Hash (fst (children test_a test_b)) ++ Hash (snd (children test_a test_b))
   = Hash (fst (children a' b')) ++ Hash (snd (children a' b')) /\
   uint64 (Size test_a + Size test_b) = uint64 (Size a' + Size b')) /\
  Parent test_a test_b = Parent a' b'.
Proof.
  intros a' b'.
  assert (Hh : Hash (fst (children test_a test_b)) ++ Hash (snd (children test_a test_b))
               = Hash (fst (children a' b')) ++ Hash (snd (children a' b')))
    by reflexivity.
  assert (Hs : uint64 (Size test_a + Size test_b) = uint64 (Size a' + Size b'))
    by reflexivity.
  split; [split; [exact Hh|exact Hs]|].
  exact (Parent_reads test_a test_b a' b' Hh Hs).
Defined.

Lemma Tree_fuse_witness :
  (wf_node leaf_a /\ wf_node leaf_b) /\
  Tree [leaf_a; leaf_b] None = Tree [fuse leaf_a leaf_b] None.
Proof.
  assert (Ha : wf_node leaf_a) by (unfold wf_node, is_uint64; cbn; lia).
  assert (Hb : wf_node leaf_b) by (unfold wf_node, is_uint64; cbn; lia).
  split; [split; assumption|].
  exact (Tree_fuse leaf_a leaf_b [] None Ha Hb).
Defined.



Lemma ValidateKeyPair_spec_witness :
  ValidateKeyPair (mkKeyPair (replicate 32 x01) (replicate 32 xff ++ replicate 32 x01))
  = Ok true /\
  ValidateKeyPair (mkKeyPair (replicate 32 x01) (replicate 31 xff))
  = Panic SliceBoundsOutOfRange.
Proof.
  split.
  - exact (proj2 (proj2 (ValidateKeyPair_spec (mkKeyPair [] [])))
             (replicate 32 xff) (replicate 32 x01) eq_refl eq_refl).
  - apply (proj1 (ValidateKeyPair_spec
                    (mkKeyPair (replicate 32 x01) (replicate 31 xff)))).
    vm_compute. reflexivity.
Defined.

